(** * The ranking engine of worldsproject/compare_teams.py

    A shallow embedding of [calculate_weighted_rankings] and
    [calculate_head_to_head_records], and the properties of the two
    functions that the specification of the repository states.

    Conventions of the embedding.
    - Team and league ids are Python integers: [Z].
    - Python floats are idealised as exact rationals ([Q]); equalities
      between computed numbers are stated with [==].  Division is the
      partial [truediv], which raises [ZeroDivisionError] on a zero
      divisor, as Python's [/] does.
    - [ranking_data] is a [defaultdict] whose iteration order (the order
      of insertion) decides the order of the output, so it is an
      association list; dictionaries whose order is never observed
      ([winrates], the multiplier tables, the head-to-head records) are
      [gmap]s.
    - A local variable that may be unbound ([opponents] in the first
      pass) is an [option]; reading it unbound raises
      [UnboundLocalError].

    After the engine come the functions around it
    ([fetch_matches_for_pair], [get_all_head_to_head_matches],
    [choose_json_file], [load_teams_from_json],
    [format_head_to_head_records]) and the two other scripts,
    worldsproject/game_pairs.py and worldsproject/team_id_search.py,
    with their own conventions and properties. *)

From Stdlib Require Import ZArith QArith Lqa Lia Sorted.
From stdpp Require Import gmap strings list pretty.

Local Open Scope Z_scope.

(** ** Errors *)

Inductive error : Type :=
| UnboundLocalError (var : string)
| ZeroDivisionError.

Definition result (A : Type) : Type := error + A.

Definition raise {A} (e : error) : result A := inl e.
Definition ret {A} (x : A) : result A := inr x.

Definition bind {A B} (c : result A) (k : A -> result B) : result B :=
  match c with
  | inl e => inl e
  | inr x => k x
  end.

Notation "x <~ c ;; k" := (bind c (fun x => k))
  (at level 100, c at next level, right associativity).

(** [map] of a fallible function, left to right, stopping at the first
    error. *)
Fixpoint mapM {A B} (f : A -> result B) (l : list A) : result (list B) :=
  match l with
  | [] => ret []
  | x :: rest => y <~ f x ;; ys <~ mapM f rest ;; ret (y :: ys)
  end.

(** ** Numbers *)

Definition of_nat (n : nat) : Q := inject_Z (Z.of_nat n).

(** Python's [a / b]. *)
Definition truediv (a b : Q) : result Q :=
  if Qeq_bool b 0 then raise ZeroDivisionError else ret (a / b)%Q.

(** ** Configuration *)

Definition BASE_WIN_POINTS : Q := 100.

Definition SERIES_MULTIPLIERS : gmap nat Q :=
  {[ 1%nat := 1.0%Q; 3%nat := 1.2%Q; 5%nat := 1.5%Q ]}.

(** Every entry of the table is commented out in the source. *)
Definition LEAGUE_WEIGHTS : gmap Z Q := ∅.

(** ** Match records, as the engine reads them *)

(** Team ids are integers. *)
Abbreviation team_id := Z (only parsing).

(** One raw match record.
    - [winner]: [Some i] when [match.get('winner')] is a non-empty
      object with key ['id'] holding [i]; [None] when the key is absent,
      null, or an object without ['id'].
    - [opponents]: [match.get('opponents', [])]; an entry is [Some i]
      when it has ['opponent'] with an ['id'] holding [i], else [None].
    - [games]: [match.get('games', [])], of which only the length is
      read (the entries stand for the game ids).
    - [league]: [match.get('league', {}).get('id')]. *)
Record match_record : Type := {
  winner : option team_id;
  opponents : list (option team_id);
  games : list Z;
  league : option Z
}.

(** [[opp['opponent']['id'] for opp in match.get('opponents', [])
      if 'opponent' in opp and 'id' in opp['opponent']]] *)
Definition opponent_ids (m : match_record) : list team_id :=
  omap (fun opp => opp) (opponents m).

(** [next((opp_id for opp_id in opponents if opp_id != winner_id), None)] *)
Fixpoint next_other (winner_id : team_id) (ids : list team_id) : option team_id :=
  match ids with
  | [] => None
  | opp_id :: rest =>
      if negb (opp_id =? winner_id) then Some opp_id else next_other winner_id rest
  end.

(** Truthiness of an integer: [if i] holds unless [i] is 0. *)
Definition truthy (i : team_id) : bool := negb (i =? 0).

(** ** Standings *)

Record standing : Type := {
  wins : nat;
  losses : nat;
  points : Q;
  name : string;
  total_games : nat;
  normalized_points : Q
}.

(** The default factory of [ranking_data]. *)
Definition default_standing : standing :=
  {| wins := 0; losses := 0; points := 0; name := EmptyString;
     total_games := 0; normalized_points := 0 |}.

Definition set_name (n : string) (s : standing) : standing :=
  {| wins := wins s; losses := losses s; points := points s; name := n;
     total_games := total_games s; normalized_points := normalized_points s |}.

Definition add_win (s : standing) : standing :=
  {| wins := wins s + 1; losses := losses s; points := points s; name := name s;
     total_games := total_games s; normalized_points := normalized_points s |}.

Definition add_loss (s : standing) : standing :=
  {| wins := wins s; losses := losses s + 1; points := points s; name := name s;
     total_games := total_games s; normalized_points := normalized_points s |}.

Definition add_games (n : nat) (s : standing) : standing :=
  {| wins := wins s; losses := losses s; points := points s; name := name s;
     total_games := total_games s + n; normalized_points := normalized_points s |}.

Definition add_points (p : Q) (s : standing) : standing :=
  {| wins := wins s; losses := losses s; points := (points s + p)%Q; name := name s;
     total_games := total_games s; normalized_points := normalized_points s |}.

Definition set_normalized (p : Q) (s : standing) : standing :=
  {| wins := wins s; losses := losses s; points := points s; name := name s;
     total_games := total_games s; normalized_points := p |}.

(** ** [ranking_data]: a defaultdict in insertion order *)

Definition ranking : Type := list (team_id * standing).

(** [k in ranking_data] *)
Fixpoint contains (k : team_id) (rd : ranking) : bool :=
  match rd with
  | [] => false
  | (k', _) :: rest => (k =? k') || contains k rest
  end.

(** [ranking_data[k][field] = ...] or [... += ...]: the entry of [k] is
    updated in place; a missing key is first inserted, at the end, with
    the default standing. *)
Fixpoint modify (k : team_id) (f : standing -> standing) (rd : ranking) : ranking :=
  match rd with
  | [] => [(k, f default_standing)]
  | (k', s) :: rest =>
      if k =? k' then (k', f s) :: rest else (k', s) :: modify k f rest
  end.

(** Reading an entry without creating it (used in statements only). *)
Fixpoint entry (k : team_id) (rd : ranking) : option standing :=
  match rd with
  | [] => None
  | (k', s) :: rest => if k =? k' then Some s else entry k rest
  end.

(** [if k in ranking_data: ranking_data[k][field] += ...] *)
Definition modify_if_present (k : team_id) (f : standing -> standing)
    (rd : ranking) : ranking :=
  if contains k rd then modify k f rd else rd.

(** The same guard when [k] may be [None]; no key of [ranking_data] is
    [None], so [None in ranking_data] is false. *)
Definition modify_if_present_opt (k : option team_id) (f : standing -> standing)
    (rd : ranking) : ranking :=
  match k with
  | Some i => modify_if_present i f rd
  | None => rd
  end.

(** ** [calculate_weighted_rankings] *)

(** [team_id_name_map.items()], in the order of the dict. *)
Definition name_map : Type := list (team_id * string).

(** [for team_id, team_name in team_id_name_map.items():
       ranking_data[team_id]["name"] = team_name] *)
Definition init_ranking (team_id_name_map : name_map) : ranking :=
  fold_left (fun rd '(i, n) => modify i (set_name n) rd) team_id_name_map [].

(** The state the first loop threads: the dict and the local variable
    [opponents], unbound until a match with a winner has been seen. *)
Definition pass1_state : Type := (ranking * option (list team_id))%type.

(** The body of the first loop. *)
Definition first_pass_step (st : pass1_state) (m : match_record) : result pass1_state :=
  let '(ranking_data, opponents_var) := st in
  let '(ranking_data, opponents_var) :=
    match winner m with
    | Some winner_id =>
        let ids := opponent_ids m in
        let loser_id := next_other winner_id ids in
        let ranking_data := modify_if_present winner_id add_win ranking_data in
        let ranking_data := modify_if_present_opt loser_id add_loss ranking_data in
        (ranking_data, Some ids)
    | None => (ranking_data, opponents_var)
    end in
  let num_games := length (games m) in
  match opponents_var with
  | None => raise (UnboundLocalError "opponents")
  | Some ids =>
      match ids with
      | [team1_id; team2_id] =>
          let ranking_data := modify_if_present team1_id (add_games num_games) ranking_data in
          let ranking_data := modify_if_present team2_id (add_games num_games) ranking_data in
          ret (ranking_data, Some ids)
      | _ => ret (ranking_data, Some ids)
      end
  end.

Fixpoint first_pass (matches : list match_record) (st : pass1_state) : result pass1_state :=
  match matches with
  | [] => ret st
  | m :: rest => st' <~ first_pass_step st m ;; first_pass rest st'
  end.

(** [data["wins"] / total_matches if total_matches > 0 else 0] *)
Definition winrate_of (data : standing) : result Q :=
  let total_matches := (wins data + losses data)%nat in
  if (0 <? total_matches)%nat
  then truediv (of_nat (wins data)) (of_nat total_matches)
  else ret 0%Q.

(** [for team_id, data in ranking_data.items(): winrates[team_id] = ...] *)
Fixpoint calculate_winrates (rd : ranking) (winrates : gmap Z Q) : result (gmap Z Q) :=
  match rd with
  | [] => ret winrates
  | (i, data) :: rest =>
      w <~ winrate_of data ;; calculate_winrates rest (<[i := w]> winrates)
  end.

(** [winrates.get(i, 0)] *)
Definition winrate_get (winrates : gmap Z Q) (i : team_id) : Q :=
  default 0%Q (winrates !! i).

(** [LEAGUE_WEIGHTS.get(league_id, 1.0)], where [league_id] may be [None]. *)
Definition league_weight (league_id : option Z) : Q :=
  match league_id with
  | Some i => default 1.0%Q (LEAGUE_WEIGHTS !! i)
  | None => 1.0%Q
  end.

(** [SERIES_MULTIPLIERS.get(num_games, 1.0)] *)
Definition series_weight (num_games : nat) : Q :=
  default 1.0%Q (SERIES_MULTIPLIERS !! num_games).

(** The upset bonus. *)
Definition winrate_multiplier (winner_winrate loser_winrate : Q) : Q :=
  if Qlt_le_dec winner_winrate loser_winrate
  then (1.0 + (loser_winrate - winner_winrate))%Q
  else 1.0%Q.

Definition points_awarded (winrates : gmap Z Q) (m : match_record)
    (winner_id loser_id : team_id) : Q :=
  let league_multiplier := league_weight (league m) in
  let num_games := length (games m) in
  let series_multiplier := series_weight num_games in
  let winner_winrate := winrate_get winrates winner_id in
  let loser_winrate := winrate_get winrates loser_id in
  (BASE_WIN_POINTS * series_multiplier
   * winrate_multiplier winner_winrate loser_winrate * league_multiplier)%Q.

(** The body of the second loop.  [if winner_id and loser_id] fails when
    [loser_id] is [None] and when either id is 0. *)
Definition second_pass_step (winrates : gmap Z Q) (ranking_data : ranking)
    (m : match_record) : ranking :=
  match winner m with
  | Some winner_id =>
      let ids := opponent_ids m in
      match next_other winner_id ids with
      | Some loser_id =>
          if truthy winner_id && truthy loser_id
          then modify winner_id (add_points (points_awarded winrates m winner_id loser_id))
                 ranking_data
          else ranking_data
      | None => ranking_data
      end
  | None => ranking_data
  end.

Definition second_pass (winrates : gmap Z Q) (matches : list match_record)
    (rd : ranking) : ranking :=
  fold_left (second_pass_step winrates) matches rd.

(** The body of the last loop. *)
Definition normalize (item : team_id * standing) : result (team_id * standing) :=
  let '(i, data) := item in
  if (0 <? total_games data)%nat
  then p <~ truediv (points data) (of_nat (total_games data)) ;;
       ret (i, set_normalized p data)
  else ret (i, data).

Definition final_pass (rd : ranking) : result ranking := mapM normalize rd.

(** [ranked_list.sort(key=lambda x: x["normalized_points"], reverse=True)]:
    a stable sort, largest key first. *)
Fixpoint insert_desc (x : standing) (l : list standing) : list standing :=
  match l with
  | [] => [x]
  | y :: rest =>
      if Qlt_le_dec (normalized_points x) (normalized_points y)
      then y :: insert_desc x rest
      else x :: y :: rest
  end.

Definition sort_desc (l : list standing) : list standing :=
  foldr insert_desc [] l.

(** [ranking_data] as it stands when the loops are done. *)
Definition ranking_table (matches : list match_record) (team_id_name_map : name_map)
    : result ranking :=
  let ranking_data := init_ranking team_id_name_map in
  st <~ first_pass matches (ranking_data, None) ;;
  winrates <~ calculate_winrates (fst st) ∅ ;;
  final_pass (second_pass winrates matches (fst st)).

Definition calculate_weighted_rankings (matches : list match_record)
    (team_id_name_map : name_map) : result (list standing) :=
  ranking_data <~ ranking_table matches team_id_name_map ;;
  ret (sort_desc (map snd ranking_data)).


(** ** [calculate_head_to_head_records] *)

(** [tuple(sorted((winner_id, loser_id)))] *)
Definition sorted_pair (a b : team_id) : team_id * team_id :=
  if a <=? b then (a, b) else (b, a).

(** [h2h_records[pair_key][i] += n] on a defaultdict of
    [defaultdict(int)]: a missing pair is created empty, a missing count
    starts at 0. *)
Definition h2h_add (pair_key : team_id * team_id) (i : team_id) (n : nat)
    (h2h_records : gmap (Z * Z) (gmap Z nat)) : gmap (Z * Z) (gmap Z nat) :=
  let record := default ∅ (h2h_records !! pair_key) in
  <[pair_key := <[i := (default 0%nat (record !! i) + n)%nat]> record]> h2h_records.

(** The body of the loop. *)
Definition h2h_step (h2h_records : gmap (Z * Z) (gmap Z nat)) (m : match_record)
    : gmap (Z * Z) (gmap Z nat) :=
  match winner m with
  | Some winner_id =>
      let ids := opponent_ids m in
      match next_other winner_id ids with
      | Some loser_id =>
          if truthy winner_id && truthy loser_id
          then
            let pair_key := sorted_pair winner_id loser_id in
            h2h_add pair_key loser_id 0 (h2h_add pair_key winner_id 1 h2h_records)
          else h2h_records
      | None => h2h_records
      end
  | None => h2h_records
  end.

Definition calculate_head_to_head_records (matches : list match_record)
    : gmap (Z * Z) (gmap Z nat) :=
  fold_left h2h_step matches ∅.

(** ** Vocabulary of the statements *)

(** The winner and the loser the loops read off a match: the winner's id
    and the first listed opponent id that differs from it. *)
Definition resolve (m : match_record) : option (team_id * team_id) :=
  match winner m with
  | Some winner_id =>
      match next_other winner_id (opponent_ids m) with
      | Some loser_id => Some (winner_id, loser_id)
      | None => None
      end
  | None => None
  end.

(** A match that passes the guard [if winner_id and loser_id]. *)
Definition scored (m : match_record) : bool :=
  match resolve m with
  | Some (w, l) => truthy w && truthy l
  | None => false
  end.

Definition keys (rd : ranking) : list team_id := map fst rd.

(** The standing of [k], as [ranking_data[k]] would read it. *)
Definition standing_of (k : team_id) (rd : ranking) : standing :=
  default default_standing (entry k rd).

(** The ids of the team map. *)
Definition universe (team_id_name_map : name_map) : list team_id :=
  map fst team_id_name_map.

Definition tracked (team_id_name_map : name_map) (k : team_id) : bool :=
  bool_decide (k ∈ universe team_id_name_map).

(** ** The loops as total functions *)

(** The win rate of a standing, as a total function. *)
Definition winrate (data : standing) : Q :=
  if (0 <? wins data + losses data)%nat
  then (of_nat (wins data) / of_nat (wins data + losses data))%Q
  else 0%Q.

(** [calculate_winrates], as a total function: the dict it builds. *)
Definition winrates_map (rd : ranking) (acc : gmap Z Q) : gmap Z Q :=
  fold_left (fun acc item => <[fst item := winrate (snd item)]> acc) rd acc.

(** The last loop, as a total function. *)
Definition normalized (data : standing) : standing :=
  if (0 <? total_games data)%nat
  then set_normalized (points data / of_nat (total_games data))%Q data
  else data.

(** The body of the last loop, as a total function. *)
Definition normalize_item (item : team_id * standing) : team_id * standing :=
  (fst item, normalized (snd item)).

(** The two halves of the body of the first loop: the win and loss
    counts, read off the match, and the games, credited to the ids that
    the variable [opponents] holds. *)
Definition count_result (rd : ranking) (m : match_record) : ranking :=
  match winner m with
  | Some winner_id =>
      modify_if_present_opt (next_other winner_id (opponent_ids m)) add_loss
        (modify_if_present winner_id add_win rd)
  | None => rd
  end.

Definition credit_games (ids : list team_id) (n : nat) (rd : ranking) : ranking :=
  match ids with
  | [team1_id; team2_id] =>
      modify_if_present team2_id (add_games n)
        (modify_if_present team1_id (add_games n) rd)
  | _ => rd
  end.

(** The variable [opponents] after the first half of the body. *)
Definition opponents_after (o : option (list team_id)) (m : match_record)
    : option (list team_id) :=
  match winner m with
  | Some _ => Some (opponent_ids m)
  | None => o
  end.

(** ** Further vocabulary of the statements *)

(** Every standing of the table satisfies [P]. *)
Definition all_standings (P : standing -> Prop) (rd : ranking) : Prop :=
  Forall (fun item => P (snd item)) rd.

(** The order of the output: [a] may come before [b]. *)
Definition desc (a b : standing) : Prop :=
  (normalized_points b <= normalized_points a)%Q.

(** 1 for [true], 0 for [false]. *)
Definition bump (b : bool) : nat := if b then 1%nat else 0%nat.

(** The number of matches of the list that satisfy [f]. *)
Definition count_matches (f : match_record -> bool) (ms : list match_record) : nat :=
  length (List.filter f ms).

(** The sum of [f] over the list. *)
Definition sumQ (f : match_record -> Q) (ms : list match_record) : Q :=
  fold_right (fun m acc => (f m + acc)%Q) 0%Q ms.

(** The match has [k] as its winner; the loops read [k] as its loser. *)
Definition won_by (k : team_id) (m : match_record) : bool :=
  bool_decide (winner m = Some k).

Definition lost_by (k : team_id) (m : match_record) : bool :=
  bool_decide (snd <$> resolve m = Some k).

(** The match is read by the loops as one between [a] and [b]: its
    winner and loser, sorted, are the pair [(a, b)]. *)
Definition between (a b : team_id) (m : match_record) : bool :=
  match resolve m with
  | Some (w, l) => bool_decide (sorted_pair w l = (a, b))
  | None => false
  end.

(** [record.get(i, 0)] *)
Definition wins_in (record : gmap Z nat) (i : team_id) : nat :=
  default 0%nat (record !! i).

(** The state of the records after any list of matches. *)
Definition h2h_invariant (ms : list match_record) : Prop :=
  forall a b,
    match calculate_head_to_head_records ms !! (a, b) with
    | Some record =>
        a < b /\ a <> 0 /\ b <> 0 /\
        is_Some (record !! a) /\ is_Some (record !! b) /\
        (wins_in record a + wins_in record b)%nat
          = count_matches (fun m => between a b m && scored m) ms /\
        (0 < count_matches (fun m => between a b m && scored m) ms)%nat
    | None => count_matches (fun m => between a b m && scored m) ms = 0%nat
    end.

(** The games a table credits, all teams together. *)
Definition sum_games (rd : ranking) : nat :=
  sum_list_with (fun item => total_games (snd item)) rd.

(** What a match that lists exactly two opponent ids adds to the games
    of the tracked teams: its games, once for each of the two ids that
    is in the team map. *)
Definition games_credit (tm : name_map) (m : match_record) : nat :=
  match opponent_ids m with
  | [team1_id; team2_id] =>
      (length (games m) * (bump (tracked tm team1_id) + bump (tracked tm team2_id)))%nat
  | _ => 0%nat
  end.

(** The win rate the second loop reads for [k]. *)
Definition rate (rd : ranking) (k : team_id) : Q :=
  winrate_get (winrates_map rd ∅) k.

(** The win rate as a function of the two counts. *)
Definition ratio (w l : nat) : Q :=
  if (0 <? w + l)%nat then (of_nat w / of_nat (w + l))%Q else 0%Q.

(** What the second loop adds to the points of [k] for one match. *)
Definition award (winrates : gmap Z Q) (k : team_id) (m : match_record) : Q :=
  match resolve m with
  | Some (w, l) =>
      if (w =? k) && (truthy w && truthy l)
      then points_awarded winrates m w l else 0%Q
  | None => 0%Q
  end.

(** A standing of the team map before any match is counted. *)
Definition blank (s : standing) : Prop :=
  wins s = 0%nat /\ losses s = 0%nat /\ points s = 0%Q.

(** A scored win of [k], and a scored win of [k] over [x]. *)
Definition scored_win (k : team_id) (m : match_record) : bool :=
  match resolve m with
  | Some (w, l) => (w =? k) && (truthy w && truthy l)
  | None => false
  end.

Definition scored_win_over (k x : team_id) (m : match_record) : bool :=
  match resolve m with
  | Some (w, l) => (w =? k) && (truthy w && truthy l) && (l =? x)
  | None => false
  end.

(** ** The specification's own notions, for comparison *)



(** The right-hand side of the specification's "normalization
    correctness": twice the games of the matches that list exactly two
    opponents, both tracked. *)
Definition spec_games_total (tm : name_map) (ms : list match_record) : nat :=
  (2 * sum_list_with
         (fun m =>
            match opponent_ids m with
            | [team1_id; team2_id] =>
                if tracked tm team1_id && tracked tm team2_id
                then length (games m) else 0%nat
            | _ => 0%nat
            end) ms)%nat.

(** ** Inputs of the examples *)

(** Team maps of the examples. *)
Definition teams_A_B : name_map := [(1, "A"); (2, "B")].

Definition teams_0_1 : name_map := [(0, "Zero"); (1, "One")].

Definition teams_0_1_2 : name_map := [(0, "Zero"); (1, "One"); (2, "Two")].

Definition teams_1_to_4 : name_map := [(1, "A"); (2, "B"); (3, "C"); (4, "D")].

(** A best-of-3 between teams 1 and 2, won by team 1. *)
Definition bo3_1_beats_2 : match_record :=
  {| winner := Some 1; opponents := [Some 1; Some 2];
     games := [101; 102; 103]; league := None |}.

(** A single game between teams 1 and 2, won by team 2. *)
Definition team_2_beats_1 : match_record :=
  {| winner := Some 2; opponents := [Some 1; Some 2];
     games := [801]; league := None |}.

(** A match between teams 1 and 2 that has no winner. *)
Definition no_winner_1_2 : match_record :=
  {| winner := None; opponents := [Some 1; Some 2];
     games := [201; 202]; league := None |}.

(** Team 0 loses to team 1. *)
Definition team_1_beats_0 : match_record :=
  {| winner := Some 1; opponents := [Some 1; Some 0];
     games := [401]; league := None |}.

(** A match between teams 3 and 4 that has no winner. *)
Definition no_winner_3_4 : match_record :=
  {| winner := None; opponents := [Some 3; Some 4];
     games := [901; 902]; league := None |}.

(** A match between team 1 and a team that is not in the team map, won
    by the latter. *)
Definition outsider_beats_1 : match_record :=
  {| winner := Some 3; opponents := [Some 3; Some 1];
     games := [301]; league := None |}.


(** A match between team 1 and team 7, of which only team 1 is in the
    team map of the examples. *)
Definition team_1_beats_7 : match_record :=
  {| winner := Some 1; opponents := [Some 1; Some 7];
     games := [701; 702; 703]; league := None |}.

(** * The callers of the engine and the other scripts

    Conventions of this part.
    - What a function prints is not modelled; the evaluation of a
      printed f-string is, where it can raise.
    - The network is a parameter: a function from the request to its
      answer, which is a reply or a [RequestException]
      ([requests.get], [raise_for_status] and [response.json()] raise
      nothing else that the code catches).
    - The lines the user types are a list; [input()] on an exhausted
      list raises [EOFError].
    - The pause [time.sleep(1)] has no counterpart. *)

(** ** Exceptions and dictionaries *)

Inductive exception : Type :=
| KeyError
| IndexError
| AttributeError (attribute : string)
| EOFError.

Definition outcome (A : Type) : Type := exception + A.

Definition and_then {A B} (c : outcome A) (k : A -> outcome B) : outcome B :=
  match c with
  | inl e => inl e
  | inr x => k x
  end.

Notation "x <-- c ;; k" := (and_then c (fun x => k))
  (at level 100, c at next level, right associativity).

(** [d[k]] *)
Fixpoint getitem {K V} `{EqDecision K} (k : K) (d : list (K * V)) : outcome V :=
  match d with
  | [] => inl KeyError
  | (k', v) :: rest => if decide (k = k') then inr v else getitem k rest
  end.

(** [d[k] = v]: a present key keeps its place and takes the new value,
    a new key goes to the end. *)
Fixpoint setitem {K V} `{EqDecision K} (k : K) (v : V) (d : list (K * V)) : list (K * V) :=
  match d with
  | [] => [(k, v)]
  | (k', v') :: rest =>
      if decide (k = k') then (k', v) :: rest else (k', v') :: setitem k v rest
  end.

(** The answer to a request. *)
Inductive response (A : Type) : Type :=
| RequestException (e : string)
| Reply (body : A).

Arguments RequestException {A} e.
Arguments Reply {A} body.

(** ** [fetch_matches_for_pair] *)

(** [any(opp['opponent']['id'] == t for opp in match.get('opponents', []))]:
    the scan stops at the first hit; an entry without an opponent id
    met before that raises [KeyError]. *)
Fixpoint any_opponent_is (t : team_id) (opps : list (option team_id)) : outcome bool :=
  match opps with
  | [] => inr false
  | None :: _ => inl KeyError
  | Some i :: rest => if i =? t then inr true else any_opponent_is t rest
  end.

(** Every opponent entry of the match carries an id. *)
Definition well_formed (m : match_record) : Prop := Forall is_Some (opponents m).

(** The condition of the comprehension; [and] evaluates its second
    operand only when the first holds. *)
Definition lists_both (team1_id team2_id : team_id) (m : match_record) : outcome bool :=
  found1 <-- any_opponent_is team1_id (opponents m) ;;
  if found1 then any_opponent_is team2_id (opponents m) else inr false.

(** [[match for match in matches_between_pair if ...]] *)
Fixpoint filter_pair (team1_id team2_id : team_id) (ms : list match_record)
    : outcome (list match_record) :=
  match ms with
  | [] => inr []
  | m :: rest =>
      keep <-- lists_both team1_id team2_id m ;;
      kept <-- filter_pair team1_id team2_id rest ;;
      inr (if keep then m :: kept else kept)
  end.

(** The two names an f-string of the function reads. *)
Definition pair_names (team1_id team2_id : team_id) (team_id_name_map : name_map)
    : outcome (string * string) :=
  n1 <-- getitem team1_id team_id_name_map ;;
  n2 <-- getitem team2_id team_id_name_map ;;
  inr (n1, n2).

Definition fetch_matches_for_pair
    (api : team_id -> team_id -> response (list match_record))
    (team1_id team2_id : team_id) (team_id_name_map : name_map)
    : outcome (list match_record) :=
  match api team1_id team2_id with
  | Reply matches_between_pair =>
      filtered_matches <-- filter_pair team1_id team2_id matches_between_pair ;;
      match filtered_matches with
      | [] => inr filtered_matches
      | _ :: _ =>
          _ <-- pair_names team1_id team2_id team_id_name_map ;;
          inr filtered_matches
      end
  | RequestException e =>
      _ <-- pair_names team1_id team2_id team_id_name_map ;;
      inr []
  end.

(** A record with exactly two opponent ids whose winner, if it has one,
    is one of the two. *)
Definition two_sided (m : match_record) : Prop :=
  exists x y, opponent_ids m = [x; y] /\
              (winner m = None \/ winner m = Some x \/ winner m = Some y).

(** ** [get_all_head_to_head_matches] *)

(** An object with an ['id'] and a ['name']: a team of a team file, and
    a team, a league or a tournament of a reply, of which no other field
    is read. *)
Record entity : Type := {
  entity_id : Z;
  entity_name : string
}.

(** What [json.load] returns for a team file: the dict from names to
    teams that [team_id_search.py] writes, or the list of teams that
    [game_pairs.py] writes. *)
Inductive teams_data : Type :=
| TeamsDict (items : list (string * entity))
| TeamsList (items : list entity).

(** [itertools.combinations(l, 2)] *)
Fixpoint combinations2 {A} (l : list A) : list (A * A) :=
  match l with
  | [] => []
  | x :: rest => map (pair x) rest ++ combinations2 rest
  end.

(** The loop over the pairs, with [all_matches] as accumulator. *)
Fixpoint fetch_pairs (api : team_id -> team_id -> response (list match_record))
    (team_id_name_map : name_map) (team_pairs : list (team_id * team_id))
    (all_matches : list match_record) : outcome (list match_record) :=
  match team_pairs with
  | [] => inr all_matches
  | (team1_id, team2_id) :: rest =>
      matches_for_pair <-- fetch_matches_for_pair api team1_id team2_id team_id_name_map ;;
      fetch_pairs api team_id_name_map rest (all_matches ++ matches_for_pair)
  end.

(** [{team['id']: name for name, team in teams.items()}] *)
Definition id_name_map (items : list (string * entity)) : name_map :=
  fold_left (fun d item => setitem (entity_id (snd item)) (fst item) d) items [].

Definition get_all_head_to_head_matches
    (api : team_id -> team_id -> response (list match_record))
    (teams : teams_data) : outcome (list match_record * name_map) :=
  match teams with
  | TeamsList _ => inl (AttributeError "values")
  | TeamsDict items =>
      let team_ids := map (fun item => entity_id (snd item)) items in
      let team_id_name_map := id_name_map items in
      let team_pairs := combinations2 team_ids in
      all_matches <-- fetch_pairs api team_id_name_map team_pairs [] ;;
      inr (all_matches, team_id_name_map)
  end.

(** ** Choosing from a numbered list *)

(** [l[i]]: a negative index counts from the end. *)
Definition list_getitem {A} (l : list A) (i : Z) : outcome A :=
  let j := if i <? 0 then i + Z.of_nat (length l) else i in
  if j <? 0 then inl IndexError
  else match l !! Z.to_nat j with
       | Some x => inr x
       | None => inl IndexError
       end.

(** [input()]: the next line typed and the lines that remain. *)
Definition input (inputs : list string) : outcome (string * list string) :=
  match inputs with
  | [] => inl EOFError
  | line :: rest => inr (line, rest)
  end.

Section Interaction.

(** Python's [int] on a string; [None] stands for its [ValueError]. *)
Variable int : string -> option Z.

(** The [while True] of [choose_json_file]. *)
Fixpoint choose_loop (json_files : list string) (inputs : list string)
    : outcome (option string * list string) :=
  match inputs with
  | [] => inl EOFError
  | choice :: rest =>
      if decide (choice = EmptyString) then inr (None, rest)
      else
        match int choice with
        | Some n =>
            let index := n - 1 in
            if (0 <=? index) && (index <? Z.of_nat (length json_files))
            then file <-- list_getitem json_files index ;; inr (Some file, rest)
            else choose_loop json_files rest
        | None => choose_loop json_files rest
        end
  end.

(** [choose_json_file], given what [glob.glob("*.json")] finds; it
    returns its result and the lines not yet read. *)
Definition choose_json_file (json_files : list string) (inputs : list string)
    : outcome (option string * list string) :=
  match json_files with
  | [] => inr (None, inputs)
  | _ :: _ => choose_loop json_files inputs
  end.

(** The [while True] of [select_entity]. *)
Fixpoint select_loop (options : list entity) (inputs : list string)
    : outcome (option (Z * string) * list string) :=
  match inputs with
  | [] => inl EOFError
  | line :: rest =>
      match int line with
      | Some choice =>
          if (1 <=? choice) && (choice <=? Z.of_nat (length options))
          then selected_entity <-- list_getitem options (choice - 1) ;;
               inr (Some (entity_id selected_entity, entity_name selected_entity), rest)
          else select_loop options rest
      | None => select_loop options rest
      end
  end.

(** [select_entity]; the pair [(None, None)] it returns for no option
    is [None] here. *)
Definition select_entity (entity_type name_input : string) (options : list entity)
    (inputs : list string) : outcome (option (Z * string) * list string) :=
  match options with
  | [] => inr (None, inputs)
  | _ :: _ => select_loop options inputs
  end.

(** ** [team_id_search.py] *)

(** [search_entity]: the reply, or [None] when the request fails. *)
Definition search_entity (api : string -> string -> response (list entity))
    (entity_type name : string) : option (list entity) :=
  match api entity_type name with
  | Reply body => Some body
  | RequestException _ => None
  end.

(** Python's [str.lower]. *)
Variable lower : string -> string.

(** The [while True] of [add_teams_to_json].  Every round reads at
    least one line, so as many rounds as there are lines, and one more,
    are enough; [None] stands for rounds used up. *)
Fixpoint add_teams_loop (api : string -> string -> response (list entity))
    (rounds : nat) (teams : teams_data) (inputs : list string)
    : option (outcome teams_data) :=
  match rounds with
  | O => None
  | S rounds =>
      match inputs with
      | [] => Some (inl EOFError)
      | team_name_input :: rest =>
          if decide (lower team_name_input = "done") then Some (inr teams)
          else
            match teams with
            | TeamsList _ => Some (inl (AttributeError "values"))
            | TeamsDict items =>
                if existsb
                     (fun item =>
                        bool_decide (lower (entity_name (snd item)) = lower team_name_input))
                     items
                then add_teams_loop api rounds teams rest
                else
                  match search_entity api "teams" team_name_input with
                  | Some (option1 :: more) =>
                      match select_entity "team" team_name_input (option1 :: more) rest with
                      | inl e => Some (inl e)
                      | inr (Some (team_id, team_name), rest') =>
                          if truthy team_id
                          then add_teams_loop api rounds
                                 (TeamsDict
                                    (setitem team_name
                                       {| entity_id := team_id; entity_name := team_name |}
                                       items))
                                 rest'
                          else add_teams_loop api rounds teams rest'
                      | inr (None, rest') => add_teams_loop api rounds teams rest'
                      end
                  | _ => add_teams_loop api rounds teams rest
                  end
            end
      end
  end.

(** [add_teams_to_json]: what it writes to [teams.json], given what the
    file held before ([None]: no file; [Some None]: a file that
    [json.load] rejects).  An exception leaves the file as it was. *)
Definition add_teams_to_json (api : string -> string -> response (list entity))
    (existing : option (option teams_data)) (inputs : list string)
    : option (outcome teams_data) :=
  let teams :=
    match existing with
    | Some (Some loaded) => loaded
    | _ => TeamsDict []
    end in
  add_teams_loop api (S (length inputs)) teams inputs.

End Interaction.

(** ** [load_teams_from_json] *)

(** What opening and parsing the file gives. *)
Inductive file_content : Type :=
| FileNotFoundError
| JSONDecodeError
| Loaded (teams : teams_data).

(** [len(teams_data)] *)
Definition teams_len (teams : teams_data) : nat :=
  match teams with
  | TeamsDict items => length items
  | TeamsList items => length items
  end.

Definition load_teams_from_json (content : file_content) : option teams_data :=
  match content with
  | Loaded teams =>
      if (teams_len teams =? 0)%nat || (teams_len teams <? 2)%nat
      then None else Some teams
  | _ => None
  end.

(** ** [game_pairs.py] *)

(** The three requests of [get_teams_from_region]: the leagues of a game
    with a given slug, the tournaments of a league, the teams of a
    tournament. *)
Record region_api : Type := {
  get_leagues : string -> string -> response (list entity);
  get_tournaments : string -> Z -> response (list entity);
  get_teams : Z -> response (list entity)
}.

(** The body of the loop over the tournaments: a failed request is
    skipped, a team met again replaces the one held under its id. *)
Definition collect_teams (api : region_api) (all_teams : list (Z * entity))
    (tournament : entity) : list (Z * entity) :=
  match get_teams api (entity_id tournament) with
  | Reply teams =>
      fold_left (fun all_teams team => setitem (entity_id team) team all_teams)
        teams all_teams
  | RequestException _ => all_teams
  end.

(** What holds of [all_teams] when the tournaments [seen] have been gone
    through: no id twice; every team under its own id and from a reply
    for one of these tournaments; every team of such a reply
    represented. *)
Definition collected (api : region_api) (seen : list entity)
    (all_teams : list (Z * entity)) : Prop :=
  NoDup (map fst all_teams) /\
  (forall k team, (k, team) ∈ all_teams ->
     k = entity_id team /\
     exists tournament body,
       tournament ∈ seen /\
       get_teams api (entity_id tournament) = Reply body /\ team ∈ body) /\
  (forall tournament body team,
     tournament ∈ seen -> get_teams api (entity_id tournament) = Reply body ->
     team ∈ body -> entity_id team ∈ map fst all_teams).

(** [get_teams_from_region]: the name and the content of the file it
    writes, or [None] when it returns without writing. *)
Definition get_teams_from_region (api : region_api) (api_key : option string)
    (game_slug region_name : string) : option (string * list entity) :=
  match api_key with
  | None | Some EmptyString => None
  | Some _ =>
      match get_leagues api game_slug region_name with
      | RequestException _ => None
      | Reply [] => None
      | Reply (league :: _) =>
          match get_tournaments api game_slug (entity_id league) with
          | RequestException _ => None
          | Reply [] => None
          | Reply tournaments =>
              let all_teams := fold_left (collect_teams api) tournaments [] in
              match all_teams with
              | [] => None
              | _ :: _ =>
                  let teams_list := map snd all_teams in
                  let filename := region_name +:+ "_" +:+ game_slug +:+ "_teams.json" in
                  Some (filename, teams_list)
              end
          end
      end
  end.

(** ** [format_head_to_head_records] *)

(** The string of one line feed, ["\n"]. *)
Definition newline : string :=
  String (Ascii.Ascii false true false true false false false false) EmptyString.

(** [team_id_name_map.get(i, "Unknown")] *)
Definition name_or_unknown (team_id_name_map : name_map) (i : team_id) : string :=
  match getitem i team_id_name_map with
  | inr n => n
  | inl _ => "Unknown"
  end.

(** The line of one pair, with its leading line break. *)
Definition h2h_line (team_id_name_map : name_map) (item : (Z * Z) * gmap Z nat) : string :=
  let '((team1_id, team2_id), record) := item in
  newline +:+ name_or_unknown team_id_name_map team1_id +:+ " vs. "
  +:+ name_or_unknown team_id_name_map team2_id +:+ ": "
  +:+ pretty (wins_in record team1_id) +:+ "-" +:+ pretty (wins_in record team2_id).

(** [format_head_to_head_records], on [h2h_records.items()]. *)
Definition format_head_to_head_records (h2h_items : list ((Z * Z) * gmap Z nat))
    (team_id_name_map : name_map) : string :=
  let output :=
    (newline +:+ "--- Head-to-Head Breakdown ---")
    :: map (h2h_line team_id_name_map)
         (List.filter
            (fun item =>
               let '((team1_id, team2_id), record) := item in
               (0 <? wins_in record team1_id + wins_in record team2_id)%nat)
            h2h_items) in
  String.concat newline output.

(** ** Vocabulary of the statements on the interactive functions *)

(** A line that [choose_json_file] answers with another prompt: not
    empty, and not a number from 1 to the number of files. *)
Definition rejected_choice (int : string -> option Z) (json_files : list string)
    (line : string) : Prop :=
  line <> EmptyString /\
  match int line with
  | Some n => ~ (1 <= n <= Z.of_nat (length json_files))
  | None => True
  end.

(** An entry that [add_teams_to_json] can add: a team of some reply to
    a team search, under its own name, with an id that is not 0. *)
Definition found_by_search (api : string -> string -> response (list entity))
    (key : string) (team : entity) : Prop :=
  key = entity_name team /\ entity_id team <> 0 /\
  exists query body, api "teams" query = Reply body /\ team ∈ body.

(** The entries [add_teams_to_json] starts from. *)
Definition initial_items (existing : option (option teams_data))
    : list (string * entity) :=
  match existing with
  | Some (Some (TeamsDict items)) => items
  | _ => []
  end.

(** How the entries of [teams.json] can have grown from [items0]: no key
    is lost, every entry is an old one or one found by a search, and
    unique keys stay unique. *)
Definition grown_from (api : string -> string -> response (list entity))
    (items0 items : list (string * entity)) : Prop :=
  (forall key, key ∈ map fst items0 -> key ∈ map fst items) /\
  (forall key team, (key, team) ∈ items ->
                    (key, team) ∈ items0 \/ found_by_search api key team) /\
  (NoDup (map fst items0) -> NoDup (map fst items)).

(** ** Vocabulary of the statement on league ids *)

(** The match with another league id. *)
Definition with_league (league_id : option Z) (m : match_record) : match_record :=
  {| winner := winner m; opponents := opponents m; games := games m;
     league := league_id |}.

(** ** Inputs of the examples of this part *)

(** A file of two teams, with the ids and the names of [teams_A_B]. *)
Definition file_A_B : list (string * entity) :=
  [("A", {| entity_id := 1; entity_name := "A" |});
   ("B", {| entity_id := 2; entity_name := "B" |})].

(** A match provider that answers the request for teams 1 and 2 with
    three matches of team 1, two of them against team 2, and fails on
    every other request. *)
Definition provider_1_2 (team1_id team2_id : team_id) : response (list match_record) :=
  if (team1_id =? 1) && (team2_id =? 2)
  then Reply [bo3_1_beats_2; team_1_beats_7; team_2_beats_1]
  else RequestException "404 Not Found".

(** A stand-in for [int] in the examples.  It reads a non-empty string
    of decimal digits as Python does and turns every other string
    down, also the few that Python reads (blanks around the digits, a
    sign, underscores between digits); the examples use it on strings
    where the two agree. *)
Fixpoint digits_value (acc : Z) (s : string) : option Z :=
  match s with
  | EmptyString => Some acc
  | String c rest =>
      let d := Z.of_nat (Ascii.nat_of_ascii c) - 48 in
      if (0 <=? d) && (d <=? 9) then digits_value (10 * acc + d) rest else None
  end.

Definition int_of_digits (s : string) : option Z :=
  match s with
  | EmptyString => None
  | String _ _ => digits_value 0 s
  end.

(** [str.lower] on the letters A to Z. *)
Fixpoint ascii_lower (s : string) : string :=
  match s with
  | EmptyString => EmptyString
  | String c rest =>
      let n := Ascii.nat_of_ascii c in
      String (if (65 <=? n)%nat && (n <=? 90)%nat then Ascii.ascii_of_nat (n + 32) else c)
        (ascii_lower rest)
  end.

(** A team search that knows two teams whose name starts with T1. *)
Definition search_T1 (entity_type name : string) : response (list entity) :=
  if decide (name = "T1")
  then Reply [{| entity_id := 126061; entity_name := "T1" |};
              {| entity_id := 128268; entity_name := "T1 Academy" |}]
  else RequestException "404 Not Found".

(** A region with one league of three tournaments: the first two share
    a team, the request for the teams of the third fails. *)
Definition region_lck : region_api := {|
  get_leagues := fun game_slug region_name =>
    if decide (region_name = "lck")
    then Reply [{| entity_id := 293; entity_name := "LCK" |}]
    else Reply [];
  get_tournaments := fun game_slug league_id =>
    if league_id =? 293
    then Reply [{| entity_id := 11; entity_name := "Spring" |};
                {| entity_id := 12; entity_name := "Summer" |};
                {| entity_id := 13; entity_name := "Playoffs" |}]
    else RequestException "404 Not Found";
  get_teams := fun tournament_id =>
    if tournament_id =? 11
    then Reply [{| entity_id := 1; entity_name := "A" |};
                {| entity_id := 2; entity_name := "B" |}]
    else if tournament_id =? 12
    then Reply [{| entity_id := 2; entity_name := "B" |};
                {| entity_id := 3; entity_name := "C" |}]
    else RequestException "404 Not Found"
|}.

(** * Properties *)

(** ** The dictionary operations *)

Section Ranking.

Implicit Types (k : team_id) (rd : ranking) (f : standing -> standing).

Lemma contains_entry k rd : contains k rd = bool_decide (is_Some (entry k rd)).
Proof.
  induction rd as [|[k' s] rd IH]; simpl.
  - reflexivity.
  - destruct (Z.eqb_spec k k'); simpl; [|exact IH].
    reflexivity.
Qed.

Lemma contains_keys k rd : contains k rd = true <-> k ∈ keys rd.
Proof.
  unfold keys. induction rd as [|[k' s] rd IH]; simpl.
  - split; [discriminate | intros H; inversion H].
  - rewrite elem_of_cons, orb_true_iff, IH, Z.eqb_eq. tauto.
Qed.

Lemma contains_false_keys k rd : contains k rd = false <-> k ∉ keys rd.
Proof.
  rewrite <- contains_keys. destruct (contains k rd); split; congruence.
Qed.

Lemma entry_None k rd : entry k rd = None <-> k ∉ keys rd.
Proof.
  rewrite <- contains_false_keys, contains_entry.
  rewrite bool_decide_eq_false, <- eq_None_not_Some. tauto.
Qed.

Lemma entry_modify k k' f rd :
  entry k' (modify k f rd) =
  if k' =? k then Some (f (standing_of k rd)) else entry k' rd.
Proof.
  unfold standing_of. induction rd as [|[k0 s] rd IH]; simpl.
  - destruct (Z.eqb_spec k' k); reflexivity.
  - destruct (Z.eqb_spec k k0) as [->|Hne]; simpl.
    + destruct (Z.eqb_spec k' k0); reflexivity.
    + rewrite IH. destruct (Z.eqb_spec k' k0) as [->|Hne'].
      * destruct (Z.eqb_spec k0 k); [congruence | reflexivity].
      * reflexivity.
Qed.

Lemma standing_of_modify_eq k f rd :
  standing_of k (modify k f rd) = f (standing_of k rd).
Proof. unfold standing_of at 1. rewrite entry_modify, Z.eqb_refl. reflexivity. Qed.

Lemma standing_of_modify_ne k k' f rd :
  k' ≠ k -> standing_of k' (modify k f rd) = standing_of k' rd.
Proof.
  intros Hne. unfold standing_of. rewrite entry_modify.
  destruct (Z.eqb_spec k' k); [contradiction | reflexivity].
Qed.

Lemma keys_modify k f rd :
  keys (modify k f rd) = if contains k rd then keys rd else keys rd ++ [k].
Proof.
  unfold keys. induction rd as [|[k' s] rd IH]; simpl; [reflexivity|].
  destruct (Z.eqb_spec k k'); simpl; [reflexivity|].
  rewrite IH. destruct (contains k rd); reflexivity.
Qed.

Lemma keys_modify_if_present k f rd : keys (modify_if_present k f rd) = keys rd.
Proof.
  unfold modify_if_present. destruct (contains k rd) eqn:E; [|reflexivity].
  rewrite keys_modify, E. reflexivity.
Qed.

Lemma keys_modify_if_present_opt o f rd :
  keys (modify_if_present_opt o f rd) = keys rd.
Proof. destruct o; simpl; [apply keys_modify_if_present | reflexivity]. Qed.

Lemma NoDup_keys_modify k f rd : NoDup (keys rd) -> NoDup (keys (modify k f rd)).
Proof.
  intros Hnd. rewrite keys_modify. destruct (contains k rd) eqn:E; [exact Hnd|].
  apply contains_false_keys in E.
  apply NoDup_app. split_and!; [exact Hnd | | apply NoDup_singleton].
  intros x Hx Hx'. apply list_elem_of_singleton in Hx'. subst. contradiction.
Qed.

Lemma standing_of_modify_if_present k k' f rd :
  standing_of k' (modify_if_present k f rd) =
  if (k' =? k) && contains k rd then f (standing_of k' rd) else standing_of k' rd.
Proof.
  unfold modify_if_present. destruct (contains k rd) eqn:E.
  - destruct (Z.eqb_spec k' k) as [->|Hne]; simpl.
    + apply standing_of_modify_eq.
    + apply standing_of_modify_ne; assumption.
  - rewrite andb_false_r. reflexivity.
Qed.

Lemma contains_modify_if_present k k' f rd :
  contains k' (modify_if_present k f rd) = contains k' rd.
Proof.
  apply eq_true_iff_eq. rewrite !contains_keys, keys_modify_if_present. tauto.
Qed.

End Ranking.

(** ** Invariants of the standings *)

Section Invariants.

Variable P : standing -> Prop.

Lemma all_standings_modify k f rd :
  P (f default_standing) -> (forall s, P s -> P (f s)) ->
  all_standings P rd -> all_standings P (modify k f rd).
Proof.
  intros Hd Hf. unfold all_standings.
  induction rd as [|[k' s] rd IH]; simpl; intros H.
  - constructor; [exact Hd | constructor].
  - inversion H as [|? ? Hs Hrd]; subst.
    destruct (k =? k'); constructor; simpl in *; auto.
Qed.

Lemma all_standings_modify_if_present k f rd :
  (forall s, P s -> P (f s)) ->
  all_standings P rd -> all_standings P (modify_if_present k f rd).
Proof.
  intros Hf. unfold modify_if_present, all_standings.
  destruct (contains k rd) eqn:E; [|auto].
  induction rd as [|[k' s] rd IH]; simpl in *; [discriminate|].
  intros H. inversion H as [|? ? Hs Hrd]; subst.
  destruct (k =? k'); constructor; simpl in *; auto.
Qed.

Lemma all_standings_modify_if_present_opt o f rd :
  (forall s, P s -> P (f s)) ->
  all_standings P rd -> all_standings P (modify_if_present_opt o f rd).
Proof.
  destruct o; simpl; [apply all_standings_modify_if_present | auto].
Qed.

Lemma all_standings_init team_id_name_map :
  (forall n, P (set_name n default_standing)) ->
  (forall n s, P s -> P (set_name n s)) ->
  all_standings P (init_ranking team_id_name_map).
Proof.
  intros Hd Hf. unfold init_ranking.
  assert (H : all_standings P []) by constructor.
  revert H. generalize ([] : ranking).
  induction team_id_name_map as [|[i n] tm IH]; simpl; intros rd H; [exact H|].
  apply IH. apply all_standings_modify; auto.
Qed.

Lemma all_standings_first_pass_step st st' m :
  (forall s, P s -> P (add_win s)) ->
  (forall s, P s -> P (add_loss s)) ->
  (forall n s, P s -> P (add_games n s)) ->
  first_pass_step st m = inr st' ->
  all_standings P (fst st) -> all_standings P (fst st').
Proof.
  intros Hw Hl Hg. destruct st as [rd o]. unfold first_pass_step.
  intros Hstep Hrd. simpl in Hrd.
  set (rd1 := match winner m with
              | Some winner_id =>
                  modify_if_present_opt (next_other winner_id (opponent_ids m)) add_loss
                    (modify_if_present winner_id add_win rd)
              | None => rd
              end).
  assert (H1 : all_standings P rd1).
  { unfold rd1. destruct (winner m); [|exact Hrd].
    apply all_standings_modify_if_present_opt; [exact Hl|].
    apply all_standings_modify_if_present; auto. }
  destruct (winner m) as [w|]; simpl in *.
  - destruct (opponent_ids m) as [|a [|b [|c ids]]]; inversion Hstep; subst; simpl;
      try exact H1.
    repeat apply all_standings_modify_if_present; auto.
  - destruct o as [ids|]; [|discriminate].
    destruct ids as [|a [|b [|c ids]]]; inversion Hstep; subst; simpl;
      try exact H1.
    repeat apply all_standings_modify_if_present; auto.
Qed.

Lemma all_standings_first_pass ms st st' :
  (forall s, P s -> P (add_win s)) ->
  (forall s, P s -> P (add_loss s)) ->
  (forall n s, P s -> P (add_games n s)) ->
  first_pass ms st = inr st' ->
  all_standings P (fst st) -> all_standings P (fst st').
Proof.
  intros Hw Hl Hg. revert st.
  induction ms as [|m ms IH]; simpl; intros st Hrun Hst.
  - inversion Hrun; subst. exact Hst.
  - destruct (first_pass_step st m) as [e|st1] eqn:E; simpl in Hrun; [discriminate|].
    apply (IH st1 Hrun). eapply all_standings_first_pass_step; eauto.
Qed.

Lemma all_standings_second_pass winrates ms rd :
  (forall p, (0 <= p)%Q -> P (add_points p default_standing)) ->
  (forall p s, (0 <= p)%Q -> P s -> P (add_points p s)) ->
  (forall m w l, (0 <= points_awarded winrates m w l)%Q) ->
  all_standings P rd -> all_standings P (second_pass winrates ms rd).
Proof.
  intros Hd Hp Hpos. unfold second_pass. revert rd.
  induction ms as [|m ms IH]; simpl; intros rd Hrd; [exact Hrd|].
  apply IH. unfold second_pass_step.
  destruct (winner m) as [w|]; [|exact Hrd].
  destruct (next_other w (opponent_ids m)) as [l|]; [|exact Hrd].
  destruct (truthy w && truthy l); [|exact Hrd].
  apply all_standings_modify; auto.
Qed.

End Invariants.

(** ** The guarded divisions never fail *)

Lemma of_nat_nonneg n : (0 <= of_nat n)%Q.
Proof. unfold of_nat, Qle. simpl. lia. Qed.

Lemma of_nat_pos n : (0 < n)%nat -> (0 < of_nat n)%Q.
Proof. intros H. unfold of_nat, Qlt. simpl. lia. Qed.

Lemma of_nat_le n p : (n <= p)%nat -> (of_nat n <= of_nat p)%Q.
Proof. intros H. unfold of_nat, Qle. simpl. lia. Qed.

Lemma of_nat_add n p : (of_nat (n + p) == of_nat n + of_nat p)%Q.
Proof. unfold of_nat. rewrite Nat2Z.inj_add, inject_Z_plus. reflexivity. Qed.

Lemma truediv_of_nat a n : (0 < n)%nat -> truediv a (of_nat n) = inr (a / of_nat n)%Q.
Proof.
  intros H. unfold truediv.
  destruct (Qeq_bool (of_nat n) 0) eqn:E; [|reflexivity].
  apply Qeq_bool_eq in E. pose proof (of_nat_pos n H) as Hp. lra.
Qed.

Lemma winrate_of_total data : winrate_of data = inr (winrate data).
Proof.
  unfold winrate_of, winrate.
  destruct (Nat.ltb_spec 0 (wins data + losses data)); [|reflexivity].
  apply truediv_of_nat. assumption.
Qed.


Lemma calculate_winrates_total rd acc :
  calculate_winrates rd acc = inr (winrates_map rd acc).
Proof.
  revert acc. induction rd as [|[i data] rd IH]; intros acc; simpl; [reflexivity|].
  rewrite winrate_of_total. simpl. apply IH.
Qed.

Lemma winrates_map_lookup rd acc k :
  NoDup (keys rd) ->
  winrates_map rd acc !! k =
  match entry k rd with
  | Some data => Some (winrate data)
  | None => acc !! k
  end.
Proof.
  revert acc. induction rd as [|[i data] rd IH]; intros acc Hnd; simpl; [reflexivity|].
  inversion Hnd as [|? ? Hi Hnd']; subst.
  unfold winrates_map in *. simpl. rewrite (IH _ Hnd').
  destruct (Z.eqb_spec k i) as [->|Hne].
  - apply entry_None in Hi. rewrite Hi. apply lookup_insert_eq.
  - destruct (entry k rd); [reflexivity|].
    apply lookup_insert_ne. congruence.
Qed.


Lemma final_pass_total rd :
  final_pass rd = inr (map (fun item => (fst item, normalized (snd item))) rd).
Proof.
  unfold final_pass. induction rd as [|[i data] rd IH]; simpl; [reflexivity|].
  rewrite IH. unfold normalized.
  destruct (Nat.ltb_spec 0 (total_games data)) as [Hpos|_]; simpl; [|reflexivity].
  rewrite truediv_of_nat by assumption. reflexivity.
Qed.

(** ** The multipliers *)

Lemma series_weight_cases n :
  series_weight n =
  if (n =? 1)%nat then 1.0%Q else if (n =? 3)%nat then 1.2%Q
  else if (n =? 5)%nat then 1.5%Q else 1.0%Q.
Proof.
  unfold series_weight, SERIES_MULTIPLIERS.
  destruct n as [|[|[|[|[|[|n]]]]]]; try reflexivity.
  simpl. rewrite !lookup_insert_ne by lia.
  rewrite lookup_singleton_ne by lia. reflexivity.
Qed.

Lemma series_weight_bounds n : (1 <= series_weight n <= 3 # 2)%Q.
Proof.
  rewrite series_weight_cases.
  destruct (n =? 1)%nat; [split; discriminate|].
  destruct (n =? 3)%nat; [split; discriminate|].
  destruct (n =? 5)%nat; split; discriminate.
Qed.

Lemma league_weight_one lg : league_weight lg = 1.0%Q.
Proof.
  destruct lg as [i|]; simpl; [|reflexivity].
  unfold LEAGUE_WEIGHTS. rewrite lookup_empty. reflexivity.
Qed.

Lemma winrate_multiplier_ge_1 w l : (1 <= winrate_multiplier w l)%Q.
Proof. unfold winrate_multiplier. destruct (Qlt_le_dec w l); lra. Qed.

Lemma points_awarded_ge_100 winrates m w l : (100 <= points_awarded winrates m w l)%Q.
Proof.
  unfold points_awarded, BASE_WIN_POINTS. rewrite league_weight_one.
  pose proof (series_weight_bounds (length (games m))) as [Hs _].
  pose proof (winrate_multiplier_ge_1 (winrate_get winrates w) (winrate_get winrates l)) as Hu.
  nra.
Qed.

(** ** The first pass *)

Lemma first_pass_step_eq rd o m :
  first_pass_step (rd, o) m =
  match opponents_after o m with
  | None => inl (UnboundLocalError "opponents")
  | Some ids =>
      inr (credit_games ids (length (games m)) (count_result rd m), Some ids)
  end.
Proof.
  unfold first_pass_step, opponents_after, count_result, credit_games.
  destruct (winner m) as [w|].
  - destruct (opponent_ids m) as [|a [|b [|c ids]]]; reflexivity.
  - destruct o as [ids|]; [|reflexivity].
    destruct ids as [|a [|b [|c ids]]]; reflexivity.
Qed.

Lemma first_pass_app ms1 ms2 st :
  first_pass (ms1 ++ ms2) st = (st' <~ first_pass ms1 st ;; first_pass ms2 st').
Proof.
  revert st. induction ms1 as [|m ms1 IH]; intros st; simpl; [reflexivity|].
  destruct (first_pass_step st m); simpl; [reflexivity | apply IH].
Qed.

(** Once [opponents] is bound the loop cannot fail. *)
Lemma first_pass_bound ms rd ids :
  exists rd' ids', first_pass ms (rd, Some ids) = inr (rd', Some ids').
Proof.
  revert rd ids. induction ms as [|m ms IH]; intros rd ids; cbn [first_pass]; [eauto|].
  rewrite first_pass_step_eq. unfold opponents_after.
  destruct (winner m); simpl; apply IH.
Qed.

(** It fails exactly when the first match has no winner. *)
Lemma first_pass_unbound m ms rd :
  winner m = None ->
  first_pass (m :: ms) (rd, None) = inl (UnboundLocalError "opponents").
Proof.
  intros H. cbn [first_pass]. rewrite first_pass_step_eq. unfold opponents_after.
  rewrite H. reflexivity.
Qed.

Lemma first_pass_winner_first m ms rd w :
  winner m = Some w ->
  exists rd' ids', first_pass (m :: ms) (rd, None) = inr (rd', Some ids').
Proof.
  intros H. cbn [first_pass]. rewrite first_pass_step_eq. unfold opponents_after.
  rewrite H. simpl. apply first_pass_bound.
Qed.

Lemma keys_count_result rd m : keys (count_result rd m) = keys rd.
Proof.
  unfold count_result. destruct (winner m); [|reflexivity].
  rewrite keys_modify_if_present_opt. apply keys_modify_if_present.
Qed.

Lemma keys_credit_games ids n rd : keys (credit_games ids n rd) = keys rd.
Proof.
  unfold credit_games. destruct ids as [|a [|b [|c ids]]]; try reflexivity.
  rewrite !keys_modify_if_present. reflexivity.
Qed.

Lemma keys_first_pass ms st st' :
  first_pass ms st = inr st' -> keys (fst st') = keys (fst st).
Proof.
  revert st. induction ms as [|m ms IH]; intros [rd o]; cbn [first_pass].
  - intros [= <-]. reflexivity.
  - rewrite first_pass_step_eq.
    destruct (opponents_after o m) as [ids|]; simpl; [|discriminate].
    intros H. apply IH in H. simpl in H.
    rewrite H, keys_credit_games. apply keys_count_result.
Qed.

(** The team map becomes the key set of [ranking_data]. *)
Lemma keys_init_acc tm rd :
  NoDup (keys rd) ->
  let rd' := fold_left (fun rd '(i, n) => modify i (set_name n) rd) tm rd in
  NoDup (keys rd') /\ forall k, k ∈ keys rd' <-> k ∈ keys rd \/ k ∈ universe tm.
Proof.
  revert rd. induction tm as [|[i n] tm IH]; intros rd Hnd; simpl.
  - split; [exact Hnd|]. intros k. rewrite elem_of_nil. tauto.
  - destruct (IH (modify i (set_name n) rd)) as [H1 H2];
      [apply NoDup_keys_modify; exact Hnd|].
    split; [exact H1|]. intros k. rewrite H2, keys_modify, elem_of_cons.
    destruct (contains i rd) eqn:E.
    + apply contains_keys in E. split; [tauto|].
      intros [?|[->|?]]; tauto.
    + rewrite elem_of_app, list_elem_of_singleton. tauto.
Qed.

Lemma NoDup_keys_init tm : NoDup (keys (init_ranking tm)).
Proof. apply (keys_init_acc tm []). constructor. Qed.

Lemma keys_init tm k : k ∈ keys (init_ranking tm) <-> k ∈ universe tm.
Proof.
  destruct (keys_init_acc tm [] (NoDup_nil_2 (A:=team_id))) as [_ H].
  unfold init_ranking. rewrite H. simpl. rewrite elem_of_nil. tauto.
Qed.

Lemma contains_init tm k : contains k (init_ranking tm) = tracked tm k.
Proof.
  unfold tracked. apply eq_true_iff_eq.
  rewrite contains_keys, keys_init, bool_decide_eq_true. tauto.
Qed.

(** ** The whole run *)

(** The run fails only where the first pass does. *)
Lemma ranking_table_eq ms tm :
  ranking_table ms tm =
  match first_pass ms (init_ranking tm, None) with
  | inl e => inl e
  | inr st =>
      inr (map normalize_item (second_pass (winrates_map (fst st) ∅) ms (fst st)))
  end.
Proof.
  unfold ranking_table.
  destruct (first_pass ms (init_ranking tm, None)) as [e|st]; simpl; [reflexivity|].
  rewrite calculate_winrates_total. simpl. apply final_pass_total.
Qed.

Lemma ranking_table_inv ms tm t :
  ranking_table ms tm = inr t ->
  exists rd o,
    first_pass ms (init_ranking tm, None) = inr (rd, o) /\
    t = map normalize_item (second_pass (winrates_map rd ∅) ms rd).
Proof.
  rewrite ranking_table_eq.
  destruct (first_pass ms (init_ranking tm, None)) as [e|[rd o]]; [discriminate|].
  intros [= <-]. eauto.
Qed.

Lemma calculate_weighted_rankings_inv ms tm l :
  calculate_weighted_rankings ms tm = inr l ->
  exists t, ranking_table ms tm = inr t /\ l = sort_desc (map snd t).
Proof.
  unfold calculate_weighted_rankings.
  destruct (ranking_table ms tm) as [e|t]; simpl; [discriminate|].
  intros [= <-]. eauto.
Qed.

(** The run completes when the list is empty or starts with a match
    that has a winner. *)
Lemma ranking_table_runs ms tm :
  match ms with [] => True | m :: _ => winner m <> None end ->
  exists t, ranking_table ms tm = inr t.
Proof.
  intros H. rewrite ranking_table_eq. destruct ms as [|m ms].
  - simpl. eauto.
  - destruct (winner m) as [w|] eqn:E; [|contradiction].
    destruct (first_pass_winner_first m ms (init_ranking tm) w E) as (rd & ids & ->).
    eauto.
Qed.

(** ** The sort *)

Lemma insert_desc_perm x l : Permutation (insert_desc x l) (x :: l).
Proof.
  induction l as [|y l IH]; simpl; [reflexivity|].
  destruct (Qlt_le_dec (normalized_points x) (normalized_points y)); [|reflexivity].
  rewrite IH. apply perm_swap.
Qed.

Lemma sort_desc_perm l : Permutation (sort_desc l) l.
Proof.
  induction l as [|x l IH]; simpl; [reflexivity|].
  rewrite insert_desc_perm. constructor. exact IH.
Qed.

Lemma insert_desc_sorted x l :
  StronglySorted desc l -> StronglySorted desc (insert_desc x l).
Proof.
  induction l as [|y l IH]; simpl; intros Hs.
  - constructor; constructor.
  - inversion Hs as [|? ? Hl Hy]; subst.
    destruct (Qlt_le_dec (normalized_points x) (normalized_points y)) as [Hlt|Hle].
    + constructor; [apply IH; exact Hl|].
      rewrite insert_desc_perm. constructor; [|exact Hy].
      unfold desc. lra.
    + constructor; [exact Hs|]. constructor; [exact Hle|].
      eapply Forall_impl; [exact Hy|]. unfold desc. simpl. intros z Hz. lra.
Qed.

Lemma sort_desc_sorted l : StronglySorted desc (sort_desc l).
Proof.
  induction l as [|x l IH]; simpl; [constructor|].
  apply insert_desc_sorted. exact IH.
Qed.

Lemma first_pass_error ms st e :
  first_pass ms st = inl e -> e = UnboundLocalError "opponents".
Proof.
  revert st. induction ms as [|m ms IH]; intros [rd o]; cbn [first_pass].
  - discriminate.
  - rewrite first_pass_step_eq.
    destruct (opponents_after o m) as [ids|]; simpl.
    + apply IH.
    + intros [= <-]. reflexivity.
Qed.

Lemma calculate_weighted_rankings_error ms tm e :
  calculate_weighted_rankings ms tm = inl e -> e = UnboundLocalError "opponents".
Proof.
  unfold calculate_weighted_rankings. rewrite ranking_table_eq.
  destruct (first_pass ms (init_ranking tm, None)) as [e'|st] eqn:E; simpl.
  - intros [= <-]. eapply first_pass_error. exact E.
  - discriminate.
Qed.

(** Before the last loop every [normalized_points] is still the initial 0. *)
Lemma unnormalized_before_final ms tm rd o winrates :
  first_pass ms (init_ranking tm, None) = inr (rd, o) ->
  all_standings (fun s => normalized_points s = 0%Q) (second_pass winrates ms rd).
Proof.
  intros Hrun.
  apply all_standings_second_pass.
  - reflexivity.
  - intros p s _ Hs. exact Hs.
  - intros m w l. pose proof (points_awarded_ge_100 winrates m w l). lra.
  - apply (all_standings_first_pass _ ms (init_ranking tm, None) (rd, o));
      [intros s Hs; exact Hs | intros s Hs; exact Hs | intros n s Hs; exact Hs
      | exact Hrun |].
    apply all_standings_init; [reflexivity | intros n s Hs; exact Hs].
Qed.

(** * The claims *)

(** ** Errors, the upset bonus, normalization and the order of the output *)

(** C2 (the code fails it).  The claim: the engine raises no error on
    any list of match records.  The code: when the first match of the
    list has no winner, the first loop reads the variable [opponents]
    before any assignment to it and the run stops with
    [UnboundLocalError]. *)
Theorem unbound_opponents_on_first_match m ms tm :
  winner m = None ->
  calculate_weighted_rankings (m :: ms) tm = inl (UnboundLocalError "opponents").
Proof.
  intros H. unfold calculate_weighted_rankings. rewrite ranking_table_eq.
  rewrite first_pass_unbound by exact H. reflexivity.
Qed.

Lemma unbound_opponents_witness :
  calculate_weighted_rankings [no_winner_1_2] teams_A_B
  = inl (UnboundLocalError "opponents").
Proof. apply (unbound_opponents_on_first_match no_winner_1_2 [] teams_A_B). reflexivity. Defined.


(** C7.  The run never stops on a division by zero, and in every
    standing it returns [normalized_points] is [points / total_games]
    when [total_games > 0] and the initial 0 when [total_games = 0]. *)
Theorem normalized_points_well_defined ms tm :
  calculate_weighted_rankings ms tm <> inl ZeroDivisionError /\
  forall l s,
    calculate_weighted_rankings ms tm = inr l -> s ∈ l ->
    ((0 < total_games s)%nat ->
     (normalized_points s == points s / of_nat (total_games s))%Q) /\
    (total_games s = 0%nat -> normalized_points s = 0%Q).
Proof.
  split.
  - intros H. apply calculate_weighted_rankings_error in H. discriminate.
  - intros l s Hrun Hs.
    apply calculate_weighted_rankings_inv in Hrun as (t & Ht & ->).
    apply ranking_table_inv in Ht as (rd & o & Hfirst & ->).
    rewrite sort_desc_perm in Hs.
    apply list_elem_of_fmap in Hs as ([k s'] & -> & Hin).
    apply list_elem_of_fmap in Hin as ([k0 s0] & [= -> ->] & Hin).
    pose proof (unnormalized_before_final ms tm rd o (winrates_map rd ∅) Hfirst) as Hall.
    unfold all_standings in Hall. rewrite Forall_forall in Hall.
    specialize (Hall _ Hin). simpl in *. unfold normalized.
    destruct (Nat.ltb_spec 0 (total_games s0)) as [Hpos|Hz]; simpl.
    + split; [reflexivity | lia].
    + split; [lia | intros _; exact Hall].
Qed.

(** C8.  The list the run returns is in non-increasing order of
    [normalized_points], and it is the list of the standings of the
    final [ranking_data] in another order: no standing is lost, added or
    changed by the sort. *)
Theorem rankings_sorted ms tm l :
  calculate_weighted_rankings ms tm = inr l ->
  StronglySorted desc l /\
  exists t, ranking_table ms tm = inr t /\ l ≡ₚ map snd t.
Proof.
  intros Hrun. apply calculate_weighted_rankings_inv in Hrun as (t & Ht & ->).
  split; [apply sort_desc_sorted|].
  exists t. split; [exact Ht | apply sort_desc_perm].
Qed.


Lemma normalized_points_well_defined_witness :
  exists l s,
    calculate_weighted_rankings [bo3_1_beats_2] teams_A_B = inr l /\
    l !! 0%nat = Some s /\ (0 < total_games s)%nat /\
    (normalized_points s == points s / of_nat (total_games s))%Q.
Proof.
  eexists. eexists. split; [vm_compute; reflexivity|].
  split; [reflexivity|]. split; [simpl; lia|].
  eapply (proj2 (normalized_points_well_defined [bo3_1_beats_2] teams_A_B)).
  - vm_compute. reflexivity.
  - apply list_elem_of_here.
  - simpl. lia.
Defined.

Lemma rankings_sorted_witness :
  exists l,
    calculate_weighted_rankings [team_2_beats_1] teams_A_B = inr l /\
    map name l = ["B"; "A"] /\
    StronglySorted desc l /\
    exists t, ranking_table [team_2_beats_1] teams_A_B = inr t /\ l ≡ₚ map snd t.
Proof.
  eexists. split; [vm_compute; reflexivity|]. split; [reflexivity|].
  apply (rankings_sorted [team_2_beats_1] teams_A_B). vm_compute. reflexivity.
Defined.

(** ** The points of a match, ids that are 0 and ids outside the team map *)

Lemma wins_count_result k rd m :
  wins (standing_of k (count_result rd m)) =
  (wins (standing_of k rd) + bump (won_by k m && contains k rd))%nat.
Proof.
  unfold count_result, won_by. destruct (winner m) as [w|]; simpl; [|lia].
  assert (Hw : wins (standing_of k (modify_if_present w add_win rd)) =
               (wins (standing_of k rd) + bump (bool_decide (Some w = Some k) && contains k rd))%nat).
  { rewrite standing_of_modify_if_present.
    destruct (Z.eqb_spec k w) as [->|Hne]; simpl.
    - rewrite bool_decide_eq_true_2 by reflexivity. simpl.
      destruct (contains w rd); simpl; lia.
    - rewrite bool_decide_eq_false_2 by congruence. simpl. lia. }
  destruct (next_other w (opponent_ids m)) as [l|]; simpl; [|exact Hw].
  rewrite standing_of_modify_if_present.
  destruct ((k =? l) && contains l (modify_if_present w add_win rd)); simpl; exact Hw.
Qed.

Lemma next_other_ne w ids l : next_other w ids = Some l -> l <> w.
Proof.
  induction ids as [|i ids IH]; simpl; [discriminate|].
  destruct (Z.eqb_spec i w); simpl; [exact IH|]. intros [= <-]. assumption.
Qed.

Lemma losses_count_result k rd m :
  losses (standing_of k (count_result rd m)) =
  (losses (standing_of k rd) + bump (lost_by k m && contains k rd))%nat.
Proof.
  unfold count_result, lost_by, resolve. destruct (winner m) as [w|]; simpl; [|lia].
  destruct (next_other w (opponent_ids m)) as [l|]; simpl.
  - rewrite standing_of_modify_if_present, contains_modify_if_present.
    destruct (Z.eqb_spec k l) as [->|Hne]; simpl.
    + rewrite bool_decide_eq_true_2 by reflexivity. simpl.
      destruct (contains l rd); simpl; rewrite standing_of_modify_if_present;
        destruct ((l =? w) && _); simpl; lia.
    + rewrite bool_decide_eq_false_2 by congruence. simpl.
      rewrite standing_of_modify_if_present.
      destruct ((k =? w) && _); simpl; lia.
  - rewrite standing_of_modify_if_present.
    destruct ((k =? w) && _); simpl; lia.
Qed.

Lemma wins_credit_games k ids n rd :
  wins (standing_of k (credit_games ids n rd)) = wins (standing_of k rd).
Proof.
  unfold credit_games. destruct ids as [|a [|b [|c ids]]]; try reflexivity.
  rewrite !standing_of_modify_if_present.
  repeat match goal with |- context [if ?b then _ else _] => destruct b end; reflexivity.
Qed.

Lemma losses_credit_games k ids n rd :
  losses (standing_of k (credit_games ids n rd)) = losses (standing_of k rd).
Proof.
  unfold credit_games. destruct ids as [|a [|b [|c ids]]]; try reflexivity.
  rewrite !standing_of_modify_if_present.
  repeat match goal with |- context [if ?b then _ else _] => destruct b end; reflexivity.
Qed.

(** C5.  A match that passes the guard of the second loop adds
    [BASE_WIN_POINTS * series * upset * league] to the winner's points
    and leaves every other entry alone; the base is 100; the series
    multiplier is 1.0, 1.2, 1.5 for 1, 3, 5 games and 1.0 for any other
    count; a league that is not in [LEAGUE_WEIGHTS] weighs 1.0; a single
    best-of-3 won by A over B gives A 120 points and 40 normalized
    points, over 3 games each. *)
Theorem points_awarded_formula :
  (forall winrates rd m winner_id loser_id,
     winner m = Some winner_id ->
     next_other winner_id (opponent_ids m) = Some loser_id ->
     winner_id <> 0 -> loser_id <> 0 ->
     let awarded :=
       (BASE_WIN_POINTS * series_weight (length (games m))
        * winrate_multiplier (winrate_get winrates winner_id)
            (winrate_get winrates loser_id)
        * league_weight (league m))%Q in
     let rd' := second_pass_step winrates rd m in
     points (standing_of winner_id rd') = (points (standing_of winner_id rd) + awarded)%Q /\
     forall k, k <> winner_id -> entry k rd' = entry k rd) /\
  BASE_WIN_POINTS = 100%Q /\
  (forall n,
     series_weight n =
     if (n =? 1)%nat then 1.0%Q else if (n =? 3)%nat then 1.2%Q
     else if (n =? 5)%nat then 1.5%Q else 1.0%Q) /\
  (forall league_id,
     (forall i, league_id = Some i -> LEAGUE_WEIGHTS !! i = None) ->
     league_weight league_id = 1.0%Q) /\
  (exists a b,
     calculate_weighted_rankings [bo3_1_beats_2] teams_A_B = inr [a; b] /\
     name a = "A" /\ name b = "B" /\
     (points a == 120)%Q /\ (normalized_points a == 40)%Q /\
     total_games a = 3%nat /\ total_games b = 3%nat /\
     (points b == 0)%Q /\ (normalized_points b == 0)%Q).
Proof.
  split; [|split; [reflexivity|split; [exact series_weight_cases|split]]].
  - intros winrates rd m w l Hw Hl Hw0 Hl0. cbv zeta.
    unfold second_pass_step. rewrite Hw, Hl. unfold truthy.
    destruct (Z.eqb_spec w 0); [contradiction|].
    destruct (Z.eqb_spec l 0); [contradiction|]. simpl.
    split.
    + rewrite standing_of_modify_eq. reflexivity.
    + intros k Hk. rewrite entry_modify.
      destruct (Z.eqb_spec k w); [contradiction | reflexivity].
  - intros lg _. apply league_weight_one.
  - eexists. eexists. split; [vm_compute; reflexivity|].
    repeat split.
Qed.

Lemma points_awarded_formula_witness :
  let winrates : gmap Z Q := {[ 1 := 0.2%Q; 2 := 0.8%Q ]} in
  let rd' := second_pass_step winrates (init_ranking teams_A_B) bo3_1_beats_2 in
  (points (standing_of 1%Z rd') == 192)%Q /\ entry 2 rd' = entry 2 (init_ranking teams_A_B).
Proof.
  cbv zeta.
  destruct (proj1 points_awarded_formula {[ 1 := 0.2%Q; 2 := 0.8%Q ]}
              (init_ranking teams_A_B) bo3_1_beats_2 1 2) as [Hp Hk];
    [reflexivity | reflexivity | lia | lia |].
  split.
  - rewrite Hp. vm_compute. reflexivity.
  - apply Hk. lia.
Defined.

Lemma resolve_inv m w l :
  resolve m = Some (w, l) ->
  winner m = Some w /\ next_other w (opponent_ids m) = Some l.
Proof.
  unfold resolve. destruct (winner m) as [w'|]; [|discriminate].
  destruct (next_other w' (opponent_ids m)) as [l'|] eqn:E; [|discriminate].
  intros [= <- <-]. split; [reflexivity | exact E].
Qed.

(** C10.  A match whose winner or loser has id 0 fails the guard
    [if winner_id and loser_id]: the second loop leaves [ranking_data]
    as it is and the head-to-head loop leaves its records as they are;
    the first loop still counts the win and the loss, for the ids that
    are keys of [ranking_data] (the ids of the team map). *)
Theorem zero_id_not_scored winrates rd o h2h_records m winner_id loser_id :
  resolve m = Some (winner_id, loser_id) ->
  winner_id = 0 \/ loser_id = 0 ->
  second_pass_step winrates rd m = rd /\
  h2h_step h2h_records m = h2h_records /\
  exists rd',
    first_pass_step (rd, o) m = inr (rd', Some (opponent_ids m)) /\
    wins (standing_of winner_id rd') =
      (wins (standing_of winner_id rd) + bump (contains winner_id rd))%nat /\
    losses (standing_of loser_id rd') =
      (losses (standing_of loser_id rd) + bump (contains loser_id rd))%nat.
Proof.
  intros Hres Hzero. pose proof Hres as Hres'.
  apply resolve_inv in Hres as [Hw Hl].
  assert (Hguard : truthy winner_id && truthy loser_id = false).
  { unfold truthy. destruct Hzero as [-> | ->]; simpl; [reflexivity|].
    apply andb_false_r. }
  split; [|split].
  - unfold second_pass_step. rewrite Hw, Hl, Hguard. reflexivity.
  - unfold h2h_step. rewrite Hw, Hl, Hguard. reflexivity.
  - rewrite first_pass_step_eq. unfold opponents_after. rewrite Hw.
    eexists. split; [reflexivity|]. split.
    + rewrite wins_credit_games, wins_count_result. unfold won_by.
      rewrite bool_decide_eq_true_2 by exact Hw. reflexivity.
    + rewrite losses_credit_games, losses_count_result. unfold lost_by.
      rewrite Hres'. simpl. rewrite bool_decide_eq_true_2 by reflexivity. reflexivity.
Qed.

Lemma zero_id_not_scored_witness :
  second_pass_step ∅ (init_ranking teams_0_1) team_1_beats_0 = init_ranking teams_0_1 /\
  h2h_step ∅ team_1_beats_0 = ∅ /\
  exists rd',
    first_pass_step (init_ranking teams_0_1, None) team_1_beats_0
      = inr (rd', Some [1; 0]) /\
    wins (standing_of 1 rd') = 1%nat /\ losses (standing_of 0 rd') = 1%nat.
Proof.
  apply (zero_id_not_scored ∅ (init_ranking teams_0_1) None ∅ team_1_beats_0 1 0).
  - reflexivity.
  - right. reflexivity.
Defined.

(** C4 (the code fails it).  The claim: one standing per id of the team
    map and none for other ids.  The code: the second loop writes
    [ranking_data[winner_id]] without the membership test the first loop
    makes, so a scored match won by an id outside the map adds a
    standing, with the default empty name, to the result. *)
Theorem outsider_gets_a_standing :
  exists l,
    calculate_weighted_rankings [outsider_beats_1] teams_A_B = inr l /\
    map name l = ["A"; "B"; EmptyString] /\
    universe teams_A_B = [1; 2].
Proof.
  eexists. split; [vm_compute; reflexivity|]. split; reflexivity.
Qed.

(** ** Head-to-head records *)

Lemma count_matches_snoc f ms m :
  count_matches f (ms ++ [m]) = (count_matches f ms + bump (f m))%nat.
Proof.
  unfold count_matches. rewrite List.filter_app, length_app. simpl.
  destruct (f m); reflexivity.
Qed.

Lemma h2h_snoc ms m :
  calculate_head_to_head_records (ms ++ [m]) =
  h2h_step (calculate_head_to_head_records ms) m.
Proof. unfold calculate_head_to_head_records. apply fold_left_app. Qed.

Lemma sorted_pair_cases w l a b :
  sorted_pair w l = (a, b) -> (w = a /\ l = b /\ a <= b) \/ (w = b /\ l = a /\ a < b).
Proof.
  unfold sorted_pair. destruct (Z.leb_spec w l); intros [= <- <-]; lia.
Qed.

(** What one scored match does to the record of its pair. *)
Lemma h2h_step_scored h m w l :
  resolve m = Some (w, l) -> truthy w && truthy l = true ->
  h2h_step h m =
  let record := default ∅ (h !! sorted_pair w l) in
  <[sorted_pair w l :=
      <[l := wins_in (<[w := (wins_in record w + 1)%nat]> record) l]>
        (<[w := (wins_in record w + 1)%nat]> record)]> h.
Proof.
  intros Hres Hg. apply resolve_inv in Hres as [Hw Hl].
  unfold h2h_step. rewrite Hw, Hl, Hg. cbv zeta. unfold h2h_add.
  rewrite lookup_insert_eq. simpl. rewrite insert_insert_eq.
  unfold wins_in. rewrite Nat.add_0_r. reflexivity.
Qed.

Lemma h2h_step_unscored h m :
  scored m = false -> h2h_step h m = h.
Proof.
  unfold scored, resolve, h2h_step. destruct (winner m) as [w|]; [|reflexivity].
  destruct (next_other w (opponent_ids m)) as [l|]; [|reflexivity].
  intros ->. reflexivity.
Qed.

Lemma h2h_invariant_holds ms : h2h_invariant ms.
Proof.
  induction ms as [|m ms IH] using rev_ind.
  - intros a b. unfold calculate_head_to_head_records. simpl.
    rewrite lookup_empty. reflexivity.
  - intros a b. rewrite h2h_snoc, !count_matches_snoc.
    specialize (IH a b). set (h := calculate_head_to_head_records ms) in *.
    destruct (scored m) eqn:Hsc.
    2:{ rewrite h2h_step_unscored by exact Hsc. rewrite andb_false_r. simpl.
        rewrite !Nat.add_0_r. exact IH. }
    unfold scored in Hsc. destruct (resolve m) as [[w l]|] eqn:Hres; [|discriminate].
    rewrite (h2h_step_scored h m w l Hres Hsc). cbv zeta.
    assert (Hb : between a b m = bool_decide (sorted_pair w l = (a, b)))
      by (unfold between; rewrite Hres; reflexivity).
    rewrite Hb, andb_true_r. clear Hb.
    pose proof (next_other_ne _ _ _ (proj2 (resolve_inv _ _ _ Hres))) as Hne.
    unfold truthy in Hsc. apply andb_true_iff in Hsc as [Hw0 Hl0].
    apply negb_true_iff, Z.eqb_neq in Hw0. apply negb_true_iff, Z.eqb_neq in Hl0.
    destruct (decide (sorted_pair w l = (a, b))) as [Heq|Hneq].
    + rewrite bool_decide_eq_true_2 by exact Heq. rewrite Heq, lookup_insert_eq.
      simpl bump.
      assert (Hsum : forall record : gmap Z nat,
        let r1 := <[w := (wins_in record w + 1)%nat]> record in
        let r2 := <[l := wins_in r1 l]> r1 in
        is_Some (r2 !! w) /\ is_Some (r2 !! l) /\
        (wins_in r2 w + wins_in r2 l = wins_in record w + wins_in record l + 1)%nat).
      { intros record r1 r2. unfold r2, r1, wins_in.
        rewrite lookup_insert_eq.
        rewrite (lookup_insert_ne _ l w) by congruence.
        rewrite (lookup_insert_ne _ w l) by congruence.
        rewrite lookup_insert_eq. simpl.
        split; [eauto|]. split; [eauto|]. lia. }
      specialize (Hsum (default ∅ (h !! (a, b)))). cbv zeta in Hsum.
      destruct Hsum as (Hsw & Hsl & Hsum).
      assert (Hab : a < b /\ a <> 0 /\ b <> 0).
      { apply sorted_pair_cases in Heq as [(-> & -> & ?)|(-> & -> & ?)]; lia. }
      destruct Hab as (Hlt & Ha0 & Hb0).
      split; [exact Hlt|]. split; [exact Ha0|]. split; [exact Hb0|].
      assert (Hold : (wins_in (default ∅ (h !! (a, b))) a
                      + wins_in (default ∅ (h !! (a, b))) b)%nat
                     = count_matches (fun m0 => between a b m0 && scored m0) ms).
      { destruct (h !! (a, b)) as [record|]; simpl.
        - apply IH.
        - rewrite IH. unfold wins_in. rewrite !lookup_empty. reflexivity. }
      apply sorted_pair_cases in Heq as [(-> & -> & _)|(-> & -> & _)].
      * split; [exact Hsw|]. split; [exact Hsl|]. split; lia.
      * split; [exact Hsl|]. split; [exact Hsw|]. split; lia.
    + rewrite bool_decide_eq_false_2 by exact Hneq.
      rewrite lookup_insert_ne by exact Hneq. simpl. rewrite !Nat.add_0_r. exact IH.
Qed.


Lemma count_matches_pos f ms :
  (0 < count_matches f ms)%nat -> exists m, m ∈ ms /\ f m = true.
Proof.
  unfold count_matches. induction ms as [|m ms IH]; simpl; [lia|].
  destruct (f m) eqn:E.
  - intros _. exists m. split; [apply list_elem_of_here | exact E].
  - intros H. destruct (IH H) as (m' & Hin & Hf).
    exists m'. split; [apply list_elem_of_further; exact Hin | exact Hf].
Qed.





(** ** Games accounting *)

Lemma sum_games_modify k f rd :
  (sum_games (modify k f rd) + total_games (standing_of k rd))%nat
  = (sum_games rd + total_games (f (standing_of k rd)))%nat.
Proof.
  unfold sum_games, standing_of. induction rd as [|[k' s] rd IH]; simpl.
  - lia.
  - destruct (Z.eqb_spec k k') as [->|Hne]; simpl; lia.
Qed.

Lemma sum_games_modify_same k f rd :
  (forall s, total_games (f s) = total_games s) ->
  sum_games (modify k f rd) = sum_games rd.
Proof.
  intros Hf. pose proof (sum_games_modify k f rd) as H. rewrite Hf in H. lia.
Qed.

Lemma sum_games_modify_if_present_same k f rd :
  (forall s, total_games (f s) = total_games s) ->
  sum_games (modify_if_present k f rd) = sum_games rd.
Proof.
  intros Hf. unfold modify_if_present.
  destruct (contains k rd); [apply sum_games_modify_same; exact Hf | reflexivity].
Qed.

Lemma sum_games_add_games k n rd :
  sum_games (modify_if_present k (add_games n) rd)
  = (sum_games rd + n * bump (contains k rd))%nat.
Proof.
  unfold modify_if_present. destruct (contains k rd); simpl; [|lia].
  pose proof (sum_games_modify k (add_games n) rd) as H. simpl in H. lia.
Qed.

Lemma sum_games_count_result rd m : sum_games (count_result rd m) = sum_games rd.
Proof.
  unfold count_result. destruct (winner m) as [w|]; [|reflexivity].
  destruct (next_other w (opponent_ids m)) as [l|]; simpl.
  - rewrite !sum_games_modify_if_present_same; reflexivity.
  - apply sum_games_modify_if_present_same. reflexivity.
Qed.

Lemma contains_count_result k rd m : contains k (count_result rd m) = contains k rd.
Proof.
  apply eq_true_iff_eq. rewrite !contains_keys, keys_count_result. tauto.
Qed.

Lemma contains_credit_games k ids n rd :
  contains k (credit_games ids n rd) = contains k rd.
Proof.
  apply eq_true_iff_eq. rewrite !contains_keys, keys_credit_games. tauto.
Qed.

Lemma sum_games_credit_games tm ids n rd :
  (forall k, contains k rd = tracked tm k) ->
  sum_games (credit_games ids n rd) =
  (sum_games rd +
   match ids with
   | [team1_id; team2_id] => n * (bump (tracked tm team1_id) + bump (tracked tm team2_id))
   | _ => 0
   end)%nat.
Proof.
  intros Hc. unfold credit_games. destruct ids as [|a [|b [|c ids]]]; try lia.
  rewrite !sum_games_add_games, contains_modify_if_present, !Hc. lia.
Qed.

(** When every match has a winner, [opponents] always holds the ids of
    the current match, and the first loop credits each match's games to
    its own opponents. *)
Lemma first_pass_all_winners tm ms rd o :
  Forall (fun m => winner m <> None) ms ->
  (forall k, contains k rd = tracked tm k) ->
  exists rd' o',
    first_pass ms (rd, o) = inr (rd', o') /\
    (forall k, contains k rd' = tracked tm k) /\
    sum_games rd' = (sum_games rd + sum_list_with (games_credit tm) ms)%nat.
Proof.
  intros Hall. revert rd o.
  induction Hall as [|m ms Hm Hall IH]; intros rd o Hc; cbn [first_pass].
  - exists rd, o. split; [reflexivity|]. split; [exact Hc|]. simpl. lia.
  - rewrite first_pass_step_eq. unfold opponents_after.
    destruct (winner m) as [w|] eqn:Hw; [|contradiction]. simpl.
    assert (Hc1 : forall k, contains k (count_result rd m) = tracked tm k).
    { intros k. rewrite contains_count_result. apply Hc. }
    destruct (IH (credit_games (opponent_ids m) (length (games m)) (count_result rd m))
                (Some (opponent_ids m))) as (rd' & o' & Hrun & Hc' & Hsum).
    { intros k. rewrite contains_credit_games. apply Hc1. }
    exists rd', o'. split; [exact Hrun|]. split; [exact Hc'|].
    rewrite Hsum, (sum_games_credit_games tm) by exact Hc1.
    rewrite sum_games_count_result. unfold games_credit. lia.
Qed.

Lemma sum_games_second_pass winrates ms rd :
  sum_games (second_pass winrates ms rd) = sum_games rd.
Proof.
  unfold second_pass. revert rd. induction ms as [|m ms IH]; intros rd; simpl;
    [reflexivity|].
  rewrite IH. unfold second_pass_step.
  destruct (winner m) as [w|]; [|reflexivity].
  destruct (next_other w (opponent_ids m)) as [l|]; [|reflexivity].
  destruct (truthy w && truthy l); [|reflexivity].
  apply sum_games_modify_same. reflexivity.
Qed.

Lemma total_games_normalized s : total_games (normalized s) = total_games s.
Proof. unfold normalized. destruct (0 <? total_games s)%nat; reflexivity. Qed.

Lemma sum_games_final rd :
  sum_list_with total_games (map snd (map normalize_item rd)) = sum_games rd.
Proof.
  unfold sum_games. induction rd as [|[k s] rd IH]; simpl; [reflexivity|].
  rewrite IH, total_games_normalized. reflexivity.
Qed.

(** C1, as stated, fails: the games of a match with one tracked and one
    untracked opponent are credited to the tracked one, while no match
    of the list has two tracked opponents. *)
Lemma games_credited_to_single_tracked_opponent :
  exists l,
    calculate_weighted_rankings [team_1_beats_7] teams_A_B = inr l /\
    sum_list_with total_games l = 3%nat /\
    spec_games_total teams_A_B [team_1_beats_7] = 0%nat.
Proof.
  eexists. split; [vm_compute; reflexivity|]. split; reflexivity.
Qed.

(** C1, amended.  When every match of the list has a winner, the run
    completes and the games of all returned standings add up to the
    sum, over the matches that list exactly two opponent ids, of the
    match's games times the number of those two ids that are in the
    team map: twice its games when both are tracked. *)
Theorem total_games_accounting ms tm :
  Forall (fun m => winner m <> None) ms ->
  exists l,
    calculate_weighted_rankings ms tm = inr l /\
    sum_list_with total_games l = sum_list_with (games_credit tm) ms.
Proof.
  intros Hall.
  destruct (first_pass_all_winners tm ms (init_ranking tm) None Hall (contains_init tm))
    as (rd & o & Hrun & _ & Hsum).
  unfold calculate_weighted_rankings. rewrite ranking_table_eq, Hrun. simpl.
  eexists. split; [reflexivity|].
  rewrite sort_desc_perm, sum_games_final, sum_games_second_pass, Hsum.
  assert (H0 : sum_games (init_ranking tm) = 0%nat).
  { unfold init_ranking.
    assert (H : forall acc, sum_games acc = 0%nat ->
      sum_games (fold_left (fun rd '(i, n) => modify i (set_name n) rd) tm acc) = 0%nat).
    { clear. induction tm as [|[i n] tm IH]; simpl; intros acc Hacc; [exact Hacc|].
      apply IH. rewrite sum_games_modify_same; [exact Hacc | reflexivity]. }
    apply H. reflexivity. }
  rewrite H0. reflexivity.
Qed.

Lemma total_games_accounting_witness :
  exists l,
    calculate_weighted_rankings [bo3_1_beats_2; team_1_beats_7] teams_A_B = inr l /\
    sum_list_with total_games l = 9%nat.
Proof.
  apply (total_games_accounting [bo3_1_beats_2; team_1_beats_7] teams_A_B).
  repeat constructor; discriminate.
Defined.

(** A match without a winner leaves [opponents] as the previous match
    set it: its games go to the opponents of that match, here teams 1
    and 2 (3 + 2 games each) and not teams 3 and 4. *)
Lemma games_credited_to_stale_opponents :
  exists t,
    ranking_table [bo3_1_beats_2; no_winner_3_4] teams_1_to_4 = inr t /\
    map (fun item => (fst item, total_games (snd item))) t
    = [(1, 5%nat); (2, 5%nat); (3, 0%nat); (4, 0%nat)].
Proof. eexists. split; [vm_compute; reflexivity | reflexivity]. Qed.

(** ** Points never negative, and one more win: the win rates *)

Lemma count_matches_cons f m ms :
  count_matches f (m :: ms) = (bump (f m) + count_matches f ms)%nat.
Proof. unfold count_matches. simpl. destruct (f m); reflexivity. Qed.

(** The first loop counts, for every key, the matches it won and the
    matches it lost. *)
Lemma first_pass_counts ms rd o rd' o' :
  first_pass ms (rd, o) = inr (rd', o') ->
  forall k,
    contains k rd' = contains k rd /\
    wins (standing_of k rd') =
      (wins (standing_of k rd) + bump (contains k rd) * count_matches (won_by k) ms)%nat /\
    losses (standing_of k rd') =
      (losses (standing_of k rd) + bump (contains k rd) * count_matches (lost_by k) ms)%nat.
Proof.
  revert rd o. induction ms as [|m ms IH]; intros rd o; cbn [first_pass].
  - intros [= <- <-] k. unfold count_matches. simpl. split; [reflexivity|]. lia.
  - rewrite first_pass_step_eq.
    destruct (opponents_after o m) as [ids|]; simpl; [|discriminate].
    intros Hrun k. destruct (IH _ _ Hrun k) as (Hc & Hw & Hl).
    rewrite contains_credit_games, contains_count_result in Hc, Hw, Hl.
    rewrite wins_credit_games, wins_count_result in Hw.
    rewrite losses_credit_games, losses_count_result in Hl.
    rewrite !count_matches_cons. split; [exact Hc|].
    destruct (contains k rd); rewrite ?andb_true_r, ?andb_false_r in *; simpl in *; lia.
Qed.

Lemma keys_NoDup_first_pass ms tm rd o :
  first_pass ms (init_ranking tm, None) = inr (rd, o) -> NoDup (keys rd).
Proof.
  intros H. apply keys_first_pass in H. simpl in H. rewrite H.
  apply NoDup_keys_init.
Qed.

Lemma rate_eq rd k :
  NoDup (keys rd) ->
  rate rd k = if contains k rd then winrate (standing_of k rd) else 0%Q.
Proof.
  intros Hnd. unfold rate, winrate_get, standing_of.
  rewrite winrates_map_lookup by exact Hnd. rewrite contains_entry.
  destruct (entry k rd) as [s|]; simpl; [reflexivity|].
  rewrite lookup_empty. reflexivity.
Qed.

Lemma winrate_ratio s : winrate s = ratio (wins s) (losses s).
Proof. reflexivity. Qed.

Lemma ratio_win_up w l : (ratio w l <= ratio (w + 1) l)%Q.
Proof.
  unfold ratio. replace (0 <? w + 1 + l)%nat with true
    by (symmetry; apply Nat.ltb_lt; lia).
  destruct (Nat.ltb_spec 0 (w + l)) as [Hpos|Hz].
  - apply Qle_shift_div_l; [apply of_nat_pos; lia|].
    assert (E : (of_nat w / of_nat (w + l) * of_nat (w + 1 + l)
                 == of_nat w * of_nat (w + 1 + l) / of_nat (w + l))%Q).
    { field. pose proof (of_nat_pos (w + l) Hpos). lra. }
    rewrite E. apply Qle_shift_div_r; [apply of_nat_pos; lia|].
    rewrite !of_nat_add. pose proof (of_nat_nonneg w). pose proof (of_nat_nonneg l).
    change (of_nat 1) with 1%Q. nra.
  - apply Qle_shift_div_l; [apply of_nat_pos; lia|].
    rewrite !of_nat_add. pose proof (of_nat_nonneg w). pose proof (of_nat_nonneg l).
    change (of_nat 1) with 1%Q. nra.
Qed.

Lemma ratio_loss_down w l : (ratio w (l + 1) <= ratio w l)%Q.
Proof.
  unfold ratio. replace (0 <? w + (l + 1))%nat with true
    by (symmetry; apply Nat.ltb_lt; lia).
  destruct (Nat.ltb_spec 0 (w + l)) as [Hpos|Hz].
  - apply Qle_shift_div_r; [apply of_nat_pos; lia|].
    assert (E : (of_nat w / of_nat (w + l) * of_nat (w + (l + 1))
                 == of_nat w * of_nat (w + (l + 1)) / of_nat (w + l))%Q).
    { field. pose proof (of_nat_pos (w + l) Hpos). lra. }
    rewrite E. apply Qle_shift_div_l; [apply of_nat_pos; lia|].
    rewrite !of_nat_add. pose proof (of_nat_nonneg w). pose proof (of_nat_nonneg l).
    change (of_nat 1) with 1%Q. nra.
  - assert (w = 0)%nat as -> by lia.
    apply Qle_shift_div_r; [apply of_nat_pos; lia|].
    change (of_nat 0) with 0%Q. lra.
Qed.

(** ** Points after the second pass *)

Lemma sumQ_snoc f ms m : (sumQ f (ms ++ [m]) == sumQ f ms + f m)%Q.
Proof.
  unfold sumQ. induction ms as [|m' ms IH]; simpl; [lra|]. rewrite IH. lra.
Qed.

Lemma points_second_pass_step winrates rd m k :
  (points (standing_of k (second_pass_step winrates rd m))
   == points (standing_of k rd) + award winrates k m)%Q.
Proof.
  unfold second_pass_step, award, resolve.
  destruct (winner m) as [w|]; [|lra].
  destruct (next_other w (opponent_ids m)) as [l|]; [|lra].
  destruct (truthy w && truthy l); [|rewrite andb_false_r; lra].
  rewrite andb_true_r. destruct (Z.eqb_spec w k) as [->|Hne].
  - rewrite standing_of_modify_eq. simpl. reflexivity.
  - rewrite standing_of_modify_ne by congruence. lra.
Qed.

Lemma points_second_pass winrates ms rd k :
  (points (standing_of k (second_pass winrates ms rd))
   == points (standing_of k rd) + sumQ (award winrates k) ms)%Q.
Proof.
  unfold second_pass. revert rd. induction ms as [|m ms IH]; intros rd; simpl; [lra|].
  rewrite IH, points_second_pass_step. lra.
Qed.

Lemma all_standings_standing_of (P : standing -> Prop) rd k :
  P default_standing -> all_standings P rd -> P (standing_of k rd).
Proof.
  intros Hd Hall. unfold standing_of, all_standings in *.
  induction Hall as [|[k' s] rd Hs Hall IH]; simpl; [exact Hd|].
  destruct (k =? k'); [exact Hs | exact IH].
Qed.

Lemma entry_normalize k rd :
  entry k (map normalize_item rd) = normalized <$> entry k rd.
Proof.
  induction rd as [|[k' s] rd IH]; simpl; [reflexivity|].
  destruct (k =? k'); [reflexivity | exact IH].
Qed.

Lemma points_normalized s : points (normalized s) = points s.
Proof. unfold normalized. destruct (0 <? total_games s)%nat; reflexivity. Qed.

Lemma points_standing_of_normalize k rd :
  points (standing_of k (map normalize_item rd)) = points (standing_of k rd).
Proof.
  unfold standing_of. rewrite entry_normalize.
  destruct (entry k rd) as [s|]; simpl; [apply points_normalized | reflexivity].
Qed.

Lemma blank_init tm k : blank (standing_of k (init_ranking tm)).
Proof.
  apply all_standings_standing_of; [repeat split|].
  apply all_standings_init; [intros n; repeat split | intros n s Hs; exact Hs].
Qed.

Lemma points_first_pass ms tm rd o k :
  first_pass ms (init_ranking tm, None) = inr (rd, o) ->
  points (standing_of k rd) = 0%Q.
Proof.
  intros Hrun.
  apply (all_standings_standing_of (fun s => points s = 0%Q)); [reflexivity|].
  apply (all_standings_first_pass _ ms (init_ranking tm, None) (rd, o));
    [intros s Hs; exact Hs | intros s Hs; exact Hs | intros n s Hs; exact Hs
    | exact Hrun |].
  apply all_standings_init; [reflexivity | intros n s Hs; exact Hs].
Qed.

(** The final points of a team are the awards of the matches it won. *)
Lemma ranking_table_points ms tm t :
  ranking_table ms tm = inr t ->
  exists rd o,
    first_pass ms (init_ranking tm, None) = inr (rd, o) /\
    forall k, (points (standing_of k t) == sumQ (award (winrates_map rd ∅) k) ms)%Q.
Proof.
  intros Ht. apply ranking_table_inv in Ht as (rd & o & Hrun & ->).
  exists rd, o. split; [exact Hrun|]. intros k.
  rewrite points_standing_of_normalize, points_second_pass.
  rewrite (points_first_pass ms tm rd o k Hrun). lra.
Qed.

(** ** How much one more match can take from earlier upset bonuses *)

Lemma winrate_multiplier_drop a a' b b' :
  (a <= a' -> b' <= b ->
   winrate_multiplier a b - winrate_multiplier a' b' <= (a' - a) + (b - b'))%Q.
Proof.
  intros Ha Hb. unfold winrate_multiplier.
  destruct (Qlt_le_dec a b), (Qlt_le_dec a' b'); lra.
Qed.

Section Drop.

Variables (winrates winrates' : gmap Z Q) (T X : team_id).

Let dT : Q := (winrate_get winrates' T - winrate_get winrates T)%Q.
Let dX : Q := (winrate_get winrates X - winrate_get winrates' X)%Q.

Hypothesis rate_T_up : (winrate_get winrates T <= winrate_get winrates' T)%Q.
Hypothesis rate_X_down : (winrate_get winrates' X <= winrate_get winrates X)%Q.
Hypothesis rate_other :
  forall k, k <> T -> k <> X -> (winrate_get winrates' k == winrate_get winrates k)%Q.

Lemma award_drop m :
  (award winrates T m - award winrates' T m
   <= 150 * (of_nat (bump (scored_win T m)) * dT
             + of_nat (bump (scored_win_over T X m)) * dX))%Q.
Proof.
  assert (HdT : (0 <= dT)%Q) by (unfold dT; lra).
  assert (HdX : (0 <= dX)%Q) by (unfold dX; lra).
  unfold award, scored_win, scored_win_over.
  destruct (resolve m) as [[w l]|] eqn:Hres; [|simpl; change (of_nat 0) with 0%Q; lra].
  destruct ((w =? T) && (truthy w && truthy l)) eqn:Hg;
    [|simpl; change (of_nat 0) with 0%Q; lra].
  apply andb_true_iff in Hg as [HwT _]. apply Z.eqb_eq in HwT. subst w.
  pose proof (next_other_ne _ _ _ (proj2 (resolve_inv _ _ _ Hres))) as HlT.
  unfold points_awarded, BASE_WIN_POINTS. rewrite !league_weight_one.
  pose proof (series_weight_bounds (length (games m))) as [Hs1 Hs2].
  set (s := series_weight (length (games m))) in *.
  simpl andb. change (of_nat (bump true)) with 1%Q.
  destruct (Z.eqb_spec l X) as [->|HlX].
  - pose proof (winrate_multiplier_drop _ _ _ _ rate_T_up rate_X_down) as Hu.
    fold dT dX in Hu. change (of_nat (bump true)) with 1%Q.
    set (u := winrate_multiplier (winrate_get winrates T) (winrate_get winrates X)) in *.
    set (u' := winrate_multiplier (winrate_get winrates' T) (winrate_get winrates' X)) in *.
    nra.
  - pose proof (rate_other l HlT HlX) as Hl.
    assert (Hu : (winrate_multiplier (winrate_get winrates T) (winrate_get winrates l)
                  - winrate_multiplier (winrate_get winrates' T) (winrate_get winrates' l)
                  <= dT)%Q).
    { pose proof (winrate_multiplier_drop (winrate_get winrates T) (winrate_get winrates' T)
                    (winrate_get winrates l) (winrate_get winrates' l) rate_T_up) as H.
      unfold dT. lra. }
    change (of_nat (bump false)) with 0%Q.
    set (u := winrate_multiplier (winrate_get winrates T) (winrate_get winrates l)) in *.
    set (u' := winrate_multiplier (winrate_get winrates' T) (winrate_get winrates' l)) in *.
    nra.
Qed.

Lemma awards_drop ms :
  (sumQ (award winrates T) ms - sumQ (award winrates' T) ms
   <= 150 * (of_nat (count_matches (scored_win T) ms) * dT
             + of_nat (count_matches (scored_win_over T X) ms) * dX))%Q.
Proof.
  induction ms as [|m ms IH]; simpl.
  - unfold count_matches. simpl. change (of_nat 0) with 0%Q. lra.
  - rewrite !count_matches_cons, !of_nat_add.
    pose proof (award_drop m) as Hm. lra.
Qed.

End Drop.

Lemma count_matches_le f g ms :
  (forall m, f m = true -> g m = true) ->
  (count_matches f ms <= count_matches g ms)%nat.
Proof.
  intros H. induction ms as [|m ms IH]; [reflexivity|].
  rewrite !count_matches_cons. specialize (H m).
  destruct (f m), (g m); simpl; lia.
Qed.

Lemma scored_win_won_by k ms :
  (count_matches (scored_win k) ms <= count_matches (won_by k) ms)%nat.
Proof.
  apply count_matches_le. intros m. unfold scored_win, won_by.
  destruct (resolve m) as [[w l]|] eqn:Hres; [|discriminate].
  intros H. apply andb_true_iff in H as [H _]. apply Z.eqb_eq in H. subst.
  apply bool_decide_eq_true_2. apply (resolve_inv _ _ _ Hres).
Qed.

Lemma scored_win_over_lost_by k x ms :
  (count_matches (scored_win_over k x) ms <= count_matches (lost_by x) ms)%nat.
Proof.
  apply count_matches_le. intros m. unfold scored_win_over, lost_by.
  destruct (resolve m) as [[w l]|] eqn:Hres; [|discriminate].
  intros H. apply andb_true_iff in H as [_ H]. apply Z.eqb_eq in H. subst.
  apply bool_decide_eq_true_2. reflexivity.
Qed.

(** A team's own wins times the rise of its rate on one more win, and a
    team's own losses times the fall of its rate on one more loss, stay
    below a quarter. *)
Lemma square_nonneg (x : Q) : (0 <= x * x)%Q.
Proof. destruct (Qlt_le_dec x 0); nra. Qed.

Lemma quarter_win_Q (n W L : Q) :
  (0 <= n -> n <= W -> 0 <= L -> 0 < W + L ->
   n * ((W + 1) / (W + 1 + L) - W / (W + L)) <= 1 # 4)%Q.
Proof.
  intros Hn HnW HL Hpos.
  assert (E : (n * ((W + 1) / (W + 1 + L) - W / (W + L))
               == n * L / ((W + L) * (W + 1 + L)))%Q) by (field; lra).
  rewrite E.
  assert (H1 : (n * L <= W * L)%Q) by nra.
  pose proof (square_nonneg (W - L)) as H2.
  apply Qle_shift_div_r; nra.
Qed.

Lemma quarter_loss_Q (n W L : Q) :
  (0 <= n -> n <= L -> 0 <= W -> 0 < W + L ->
   n * (W / (W + L) - W / (W + (L + 1))) <= 1 # 4)%Q.
Proof.
  intros Hn HnL HW Hpos.
  assert (E : (n * (W / (W + L) - W / (W + (L + 1)))
               == n * W / ((W + L) * (W + (L + 1))))%Q) by (field; lra).
  rewrite E.
  assert (H1 : (n * W <= L * W)%Q) by nra.
  pose proof (square_nonneg (W - L)) as H2.
  apply Qle_shift_div_r; nra.
Qed.

Lemma quarter_win N w l :
  (N <= w)%nat -> (of_nat N * (ratio (w + 1) l - ratio w l) <= 1 # 4)%Q.
Proof.
  intros HN. unfold ratio.
  replace (0 <? w + 1 + l)%nat with true by (symmetry; apply Nat.ltb_lt; lia).
  destruct (Nat.ltb_spec 0 (w + l)) as [Hpos|Hz].
  - pose proof (of_nat_pos _ Hpos) as Hn. rewrite !of_nat_add in *.
    change (of_nat 1) with 1%Q.
    apply quarter_win_Q;
      [apply of_nat_nonneg | apply of_nat_le; exact HN | apply of_nat_nonneg | exact Hn].
  - assert (N = 0)%nat as -> by lia. change (of_nat 0) with 0%Q. lra.
Qed.

Lemma quarter_loss N w l :
  (N <= l)%nat -> (of_nat N * (ratio w l - ratio w (l + 1)) <= 1 # 4)%Q.
Proof.
  intros HN. unfold ratio.
  replace (0 <? w + (l + 1))%nat with true by (symmetry; apply Nat.ltb_lt; lia).
  destruct (Nat.ltb_spec 0 (w + l)) as [Hpos|Hz].
  - pose proof (of_nat_pos _ Hpos) as Hn. rewrite !of_nat_add in *.
    change (of_nat 1) with 1%Q.
    apply quarter_loss_Q;
      [apply of_nat_nonneg | apply of_nat_le; exact HN | apply of_nat_nonneg | exact Hn].
  - assert (N = 0)%nat as -> by lia. change (of_nat 0) with 0%Q. lra.
Qed.

(** ** One more win *)

Lemma first_pass_snoc ms st rd o m w :
  first_pass ms st = inr (rd, o) -> winner m = Some w ->
  first_pass (ms ++ [m]) st =
  inr (credit_games (opponent_ids m) (length (games m)) (count_result rd m),
       Some (opponent_ids m)).
Proof.
  intros Hrun Hw. rewrite first_pass_app, Hrun. cbn [bind first_pass].
  rewrite first_pass_step_eq. unfold opponents_after. rewrite Hw. reflexivity.
Qed.

Section OneMoreWin.

Variables (ms : list match_record) (tm : name_map) (m0 : match_record).
Variables (T X : team_id) (rd : ranking) (o : option (list team_id)).

Hypothesis run : first_pass ms (init_ranking tm, None) = inr (rd, o).
Hypothesis outcome : resolve m0 = Some (T, X).

Let rd' : ranking :=
  credit_games (opponent_ids m0) (length (games m0)) (count_result rd m0).

Lemma one_more_run :
  first_pass (ms ++ [m0]) (init_ranking tm, None) = inr (rd', Some (opponent_ids m0)).
Proof.
  apply first_pass_snoc with (o := o) (w := T); [exact run|].
  apply (resolve_inv _ _ _ outcome).
Qed.

Lemma one_more_distinct : X <> T.
Proof. apply (next_other_ne T (opponent_ids m0)). apply (resolve_inv _ _ _ outcome). Qed.

Lemma one_more_contains k : contains k rd' = contains k rd.
Proof. unfold rd'. rewrite contains_credit_games. apply contains_count_result. Qed.

Lemma one_more_wins k :
  wins (standing_of k rd') =
  (wins (standing_of k rd) + bump (bool_decide (k = T) && contains k rd))%nat.
Proof.
  unfold rd'. rewrite wins_credit_games, wins_count_result. unfold won_by.
  rewrite (proj1 (resolve_inv _ _ _ outcome)).
  destruct (decide (k = T)) as [->|Hne].
  - rewrite !bool_decide_eq_true_2 by reflexivity. reflexivity.
  - rewrite !bool_decide_eq_false_2 by congruence. reflexivity.
Qed.

Lemma one_more_losses k :
  losses (standing_of k rd') =
  (losses (standing_of k rd) + bump (bool_decide (k = X) && contains k rd))%nat.
Proof.
  unfold rd'. rewrite losses_credit_games, losses_count_result. unfold lost_by.
  rewrite outcome. simpl.
  destruct (decide (k = X)) as [->|Hne].
  - rewrite !bool_decide_eq_true_2 by reflexivity. reflexivity.
  - rewrite !bool_decide_eq_false_2 by congruence. reflexivity.
Qed.

Lemma one_more_rate k :
  rate rd k =
    (if contains k rd
     then ratio (wins (standing_of k rd)) (losses (standing_of k rd)) else 0%Q) /\
  rate rd' k =
    (if contains k rd
     then ratio (wins (standing_of k rd) + bump (bool_decide (k = T)))
            (losses (standing_of k rd) + bump (bool_decide (k = X)))
     else 0%Q).
Proof.
  split.
  - rewrite rate_eq by (eapply keys_NoDup_first_pass; exact run). reflexivity.
  - rewrite rate_eq by (eapply keys_NoDup_first_pass; exact one_more_run).
    rewrite one_more_contains. destruct (contains k rd) eqn:E; [|reflexivity].
    rewrite winrate_ratio, one_more_wins, one_more_losses, E, !andb_true_r.
    reflexivity.
Qed.

Lemma one_more_rate_T : (rate rd T <= rate rd' T)%Q.
Proof.
  destruct (one_more_rate T) as [-> ->]. destruct (contains T rd); [|lra].
  rewrite (bool_decide_eq_true_2 (T = T)) by reflexivity.
  rewrite (bool_decide_eq_false_2 (T = X)) by (pose proof one_more_distinct; congruence).
  simpl bump. rewrite Nat.add_0_r. apply ratio_win_up.
Qed.

Lemma one_more_rate_X : (rate rd' X <= rate rd X)%Q.
Proof.
  destruct (one_more_rate X) as [-> ->]. destruct (contains X rd); [|lra].
  rewrite (bool_decide_eq_true_2 (X = X)) by reflexivity.
  rewrite (bool_decide_eq_false_2 (X = T)) by exact one_more_distinct.
  simpl bump. rewrite Nat.add_0_r. apply ratio_loss_down.
Qed.

Lemma one_more_rate_other k : k <> T -> k <> X -> (rate rd' k == rate rd k)%Q.
Proof.
  intros HT HX. destruct (one_more_rate k) as [-> ->].
  rewrite !bool_decide_eq_false_2 by assumption. simpl bump.
  rewrite !Nat.add_0_r. reflexivity.
Qed.

Lemma one_more_counts k :
  contains k rd = true ->
  wins (standing_of k rd) = count_matches (won_by k) ms /\
  losses (standing_of k rd) = count_matches (lost_by k) ms.
Proof.
  intros Hk. destruct (first_pass_counts _ _ _ _ _ run k) as (Hc & Hw & Hl).
  rewrite Hc in Hk. rewrite Hk in Hw, Hl.
  destruct (blank_init tm k) as (Hw0 & Hl0 & _).
  rewrite Hw0 in Hw. rewrite Hl0 in Hl. simpl in Hw, Hl. lia.
Qed.

Lemma one_more_quarter_T :
  (of_nat (count_matches (scored_win T) ms) * (rate rd' T - rate rd T) <= 1 # 4)%Q.
Proof.
  destruct (one_more_rate T) as [-> ->]. destruct (contains T rd) eqn:E.
  - rewrite (bool_decide_eq_true_2 (T = T)) by reflexivity.
    rewrite (bool_decide_eq_false_2 (T = X)) by (pose proof one_more_distinct; congruence).
    simpl bump. rewrite Nat.add_0_r. apply quarter_win.
    rewrite (proj1 (one_more_counts T E)). apply scored_win_won_by.
  - assert (H : forall q : Q, (q * (0 - 0) <= 1 # 4)%Q) by (intros q; lra). apply H.
Qed.

Lemma one_more_quarter_X :
  (of_nat (count_matches (scored_win_over T X) ms) * (rate rd X - rate rd' X) <= 1 # 4)%Q.
Proof.
  destruct (one_more_rate X) as [-> ->]. destruct (contains X rd) eqn:E.
  - rewrite (bool_decide_eq_true_2 (X = X)) by reflexivity.
    rewrite (bool_decide_eq_false_2 (X = T)) by exact one_more_distinct.
    simpl bump. rewrite Nat.add_0_r. apply quarter_loss.
    rewrite (proj2 (one_more_counts X E)). apply scored_win_over_lost_by.
  - assert (H : forall q : Q, (q * (0 - 0) <= 1 # 4)%Q) by (intros q; lra). apply H.
Qed.

(** The earlier wins of [T] lose at most 75 points of upset bonus. *)
Lemma one_more_drop :
  (sumQ (award (winrates_map rd ∅) T) ms - sumQ (award (winrates_map rd' ∅) T) ms
   <= 75)%Q.
Proof.
  pose proof (awards_drop (winrates_map rd ∅) (winrates_map rd' ∅) T X
                one_more_rate_T one_more_rate_X one_more_rate_other ms) as H.
  pose proof one_more_quarter_T as HT. pose proof one_more_quarter_X as HX.
  unfold rate in HT, HX. lra.
Qed.

End OneMoreWin.

Lemma all_standings_normalize (P : standing -> Prop) rd :
  (forall s, P s -> P (normalized s)) ->
  all_standings P rd -> all_standings P (map normalize_item rd).
Proof.
  intros Hn Hall. unfold all_standings in *.
  induction Hall as [|[k s] rd Hs Hall IH]; simpl; constructor.
  - simpl in *. apply Hn. exact Hs.
  - exact IH.
Qed.

Lemma points_nonneg_first_pass ms tm rd o :
  first_pass ms (init_ranking tm, None) = inr (rd, o) ->
  all_standings (fun s => (0 <= points s)%Q) rd.
Proof.
  intros Hrun.
  apply (all_standings_first_pass _ ms (init_ranking tm, None) (rd, o));
    [intros s Hs; exact Hs | intros s Hs; exact Hs | intros n s Hs; exact Hs
    | exact Hrun |].
  apply all_standings_init; [intros n; simpl; lra | intros n s Hs; exact Hs].
Qed.

(** C9, as stated, fails: a match that team 1 wins over team 0 raises
    the win rate of team 1, which shrinks the upset bonus of its earlier
    win over team 2, and awards nothing, because the loser's id 0 fails
    the guard [if winner_id and loser_id]. *)
Lemma win_over_team_0_lowers_points :
  exists t t',
    ranking_table [team_2_beats_1; team_2_beats_1; bo3_1_beats_2] teams_0_1_2 = inr t /\
    ranking_table ([team_2_beats_1; team_2_beats_1; bo3_1_beats_2] ++ [team_1_beats_0])
      teams_0_1_2 = inr t' /\
    resolve team_1_beats_0 = Some (1, 0) /\
    (points (standing_of 1%Z t) == 160)%Q /\
    (points (standing_of 1%Z t') == 140)%Q /\
    (points (standing_of 1%Z t') < points (standing_of 1%Z t))%Q.
Proof.
  eexists. eexists. split; [vm_compute; reflexivity|].
  split; [vm_compute; reflexivity|]. split; [reflexivity|].
  repeat split; vm_compute; reflexivity.
Qed.

(** A team whose id is 0 is never awarded points: as a winner it fails
    the guard itself. *)
Lemma award_team_0 winrates m : award winrates 0 m = 0%Q.
Proof.
  unfold award. destruct (resolve m) as [[w l]|]; [|reflexivity].
  unfold truthy. destruct (w =? 0); reflexivity.
Qed.

Lemma awards_team_0 winrates ms : (sumQ (award winrates 0) ms == 0)%Q.
Proof.
  unfold sumQ. induction ms as [|m ms IH]; simpl; [lra|].
  rewrite IH, award_team_0. lra.
Qed.

(** C9, amended.  The points of every standing are non-negative, and
    appending a match whose loser has a non-zero id never lowers the
    final points of its winner, whatever the winner's id: the run on
    the longer list completes and gives the winner at least as many
    points. *)
Theorem points_nonneg_and_monotone ms tm t :
  ranking_table ms tm = inr t ->
  all_standings (fun s => (0 <= points s)%Q) t /\
  forall m winner_id loser_id,
    resolve m = Some (winner_id, loser_id) ->
    loser_id <> 0 ->
    exists t',
      ranking_table (ms ++ [m]) tm = inr t' /\
      (points (standing_of winner_id t) <= points (standing_of winner_id t'))%Q.
Proof.
  intros Ht. split.
  - apply ranking_table_inv in Ht as (rd & o & Hrun & ->).
    apply all_standings_normalize; [intros s; rewrite points_normalized; tauto|].
    apply all_standings_second_pass.
    + intros p Hp. simpl. lra.
    + intros p s Hp Hs. simpl. lra.
    + intros m w l. pose proof (points_awarded_ge_100 (winrates_map rd ∅) m w l). lra.
    + eapply points_nonneg_first_pass. exact Hrun.
  - intros m T X Hres HX.
    destruct (ranking_table_points ms tm t Ht) as (rd & o & Hrun & Hpts).
    pose proof (one_more_run ms tm m T X rd o Hrun Hres) as Hrun'.
    pose proof (one_more_drop ms tm m T X rd o Hrun Hres) as Hdrop.
    set (rd' := credit_games (opponent_ids m) (length (games m)) (count_result rd m)) in *.
    destruct (ranking_table_runs (ms ++ [m]) tm) as [t' Ht'].
    { rewrite ranking_table_eq in Ht. destruct ms as [|m1 ms']; simpl.
      - rewrite (proj1 (resolve_inv _ _ _ Hres)). discriminate.
      - destruct (winner m1) eqn:E; [discriminate|].
        rewrite first_pass_unbound in Ht by exact E. discriminate. }
    exists t'. split; [exact Ht'|].
    destruct (ranking_table_points _ tm t' Ht') as (rd2 & o2 & Hrun2 & Hpts').
    rewrite Hrun' in Hrun2. injection Hrun2 as <- <-.
    rewrite Hpts, Hpts'.
    destruct (Z.eqb_spec T 0) as [->|HT]; [rewrite !awards_team_0; lra|].
    rewrite sumQ_snoc.
    assert (Hnew : (100 <= award (winrates_map rd' ∅) T m)%Q).
    { unfold award. rewrite Hres, Z.eqb_refl. unfold truthy.
      destruct (Z.eqb_spec T 0); [contradiction|].
      destruct (Z.eqb_spec X 0); [contradiction|]. simpl.
      apply points_awarded_ge_100. }
    lra.
Qed.

Lemma points_nonneg_and_monotone_witness :
  exists t t',
    ranking_table [bo3_1_beats_2] teams_A_B = inr t /\
    ranking_table ([bo3_1_beats_2] ++ [bo3_1_beats_2]) teams_A_B = inr t' /\
    (points (standing_of 1%Z t) <= points (standing_of 1%Z t'))%Q.
Proof.
  destruct (ranking_table [bo3_1_beats_2] teams_A_B) as [e|t] eqn:Ht;
    [vm_compute in Ht; discriminate|].
  destruct (proj2 (points_nonneg_and_monotone _ _ _ Ht) bo3_1_beats_2 1 2)
    as (t' & Ht' & Hle); [reflexivity | lia |].
  exists t, t'. split; [reflexivity|]. split; [exact Ht' | exact Hle].
Defined.

(** * Further properties of the two engine functions *)

(** ** When the run completes *)

(** X1.  On match records as [match_record] holds them (['winner']
    absent, null or an object; ['opponents'] absent or a list of objects
    whose ['opponent'], if any, is an object; ['games'] absent or a
    list; ['league'] absent or an object; every id an integer), the run
    completes exactly when the list is empty or starts with a match
    that has a winner: neither division fails then, and with a first
    match without a winner the run stops on the unbound [opponents] of
    the first loop.  A record outside this shape, such as one with a
    null ['league'], on which the source raises [AttributeError], has no
    [match_record] and is not spoken of. *)
Theorem run_completes_iff ms tm :
  match ms with
  | [] => exists l, calculate_weighted_rankings ms tm = inr l
  | m :: _ =>
      match winner m with
      | Some _ => exists l, calculate_weighted_rankings ms tm = inr l
      | None => calculate_weighted_rankings ms tm = inl (UnboundLocalError "opponents")
      end
  end.
Proof.
  unfold calculate_weighted_rankings. destruct ms as [|m ms].
  - destruct (ranking_table_runs [] tm I) as [t ->]. simpl. eauto.
  - destruct (winner m) as [w|] eqn:E.
    + destruct (ranking_table_runs (m :: ms) tm) as [t ->]; [simpl; congruence|].
      simpl. eauto.
    + rewrite ranking_table_eq, first_pass_unbound by exact E. reflexivity.
Qed.

(** ** Sorting what is sorted *)

Lemma sort_desc_sorted_id l : StronglySorted desc l -> sort_desc l = l.
Proof.
  induction 1 as [|x l Hl IH Hx]; simpl; [reflexivity|].
  rewrite IH. destruct l as [|y l']; simpl; [reflexivity|].
  inversion Hx as [|? ? Hxy _]; subst. unfold desc in Hxy.
  destruct (Qlt_le_dec (normalized_points x) (normalized_points y)); [lra | reflexivity].
Qed.

Lemma all_zero_sorted l :
  Forall (fun s => normalized_points s = 0%Q) l -> StronglySorted desc l.
Proof.
  induction 1 as [|x l Hx Hl IH]; constructor; [exact IH|].
  eapply Forall_impl; [exact Hl|]. intros y Hy. unfold desc. rewrite Hx, Hy. lra.
Qed.

(** ** Empty input *)

Lemma init_ranking_acc tm acc :
  NoDup (keys acc ++ universe tm) ->
  fold_left (fun rd '(i, n) => modify i (set_name n) rd) tm acc
  = acc ++ map (fun item => (fst item, set_name (snd item) default_standing)) tm.
Proof.
  revert acc. induction tm as [|[i n] tm IH]; intros acc Hnd; simpl.
  - rewrite app_nil_r. reflexivity.
  - assert (Hi : contains i acc = false).
    { apply contains_false_keys. intros Hin.
      apply NoDup_app in Hnd as (_ & Hdisj & _). apply (Hdisj i Hin). simpl. left. }
    assert (Hm : modify i (set_name n) acc = acc ++ [(i, set_name n default_standing)]).
    { clear -Hi. induction acc as [|[k s] acc IH]; simpl in *; [reflexivity|].
      apply orb_false_iff in Hi as [Hk Hi]. rewrite Hk, IH by exact Hi. reflexivity. }
    rewrite Hm, IH.
    + rewrite <- app_assoc. reflexivity.
    + unfold keys in *. rewrite map_app. simpl. rewrite <- app_assoc. exact Hnd.
Qed.

Lemma init_ranking_NoDup tm :
  NoDup (universe tm) ->
  init_ranking tm = map (fun item => (fst item, set_name (snd item) default_standing)) tm.
Proof. intros H. unfold init_ranking. rewrite init_ranking_acc; [reflexivity | exact H]. Qed.

(** X2.  With no match at all, the result lists the teams of the map in the
    order of the map, each with its name and zeros. *)
Theorem empty_match_list tm :
  NoDup (universe tm) ->
  calculate_weighted_rankings [] tm
  = inr (map (fun item => set_name (snd item) default_standing) tm).
Proof.
  intros Hnd. unfold calculate_weighted_rankings. rewrite ranking_table_eq.
  cbn [first_pass ret bind second_pass fold_left fst].
  rewrite init_ranking_NoDup by exact Hnd. f_equal.
  rewrite !map_map. simpl.
  assert (E : map (fun x : Z * string => normalized (set_name (snd x) default_standing)) tm
              = map (fun item => set_name (snd item) default_standing) tm).
  { apply map_ext. intros [i n]. reflexivity. }
  rewrite E. apply sort_desc_sorted_id. apply all_zero_sorted.
  apply Forall_forall. intros s Hs.
  apply list_elem_of_fmap in Hs. destruct Hs as ([i n] & Hs & _).
  rewrite Hs. reflexivity.
Qed.

Lemma empty_match_list_witness :
  calculate_weighted_rankings [] teams_A_B
  = inr [set_name "A" default_standing; set_name "B" default_standing].
Proof.
  apply (empty_match_list teams_A_B).
  apply (bool_decide_unpack _). vm_compute. exact I.
Defined.

(** ** Wins, losses and names in the result *)

Section Fields.

(** A field that the points and the normalization leave alone. *)
Context {A : Type} (g : standing -> A).
Hypothesis g_points : forall p s, g (add_points p s) = g s.
Hypothesis g_normalized : forall p s, g (set_normalized p s) = g s.

Lemma field_second_pass winrates ms rd k :
  g (standing_of k (second_pass winrates ms rd)) = g (standing_of k rd).
Proof.
  unfold second_pass. revert rd. induction ms as [|m ms IH]; intros rd; simpl;
    [reflexivity|].
  rewrite IH. unfold second_pass_step.
  destruct (winner m) as [w|]; [|reflexivity].
  destruct (next_other w (opponent_ids m)) as [l|]; [|reflexivity].
  destruct (truthy w && truthy l); [|reflexivity].
  destruct (Z.eqb_spec k w) as [->|Hne].
  - rewrite standing_of_modify_eq. apply g_points.
  - rewrite standing_of_modify_ne by exact Hne. reflexivity.
Qed.

Lemma field_normalize rd k :
  g (standing_of k (map normalize_item rd)) = g (standing_of k rd).
Proof.
  unfold standing_of. rewrite entry_normalize.
  destruct (entry k rd) as [s|]; simpl; [|reflexivity].
  unfold normalized. destruct (0 <? total_games s)%nat; [apply g_normalized | reflexivity].
Qed.

Lemma field_table ms tm t k :
  ranking_table ms tm = inr t ->
  exists rd o,
    first_pass ms (init_ranking tm, None) = inr (rd, o) /\
    g (standing_of k t) = g (standing_of k rd).
Proof.
  intros Ht. apply ranking_table_inv in Ht as (rd & o & Hrun & ->).
  exists rd, o. split; [exact Hrun|].
  rewrite field_normalize. apply field_second_pass.
Qed.

End Fields.

(** X3.  In the final table a team of the map has as many wins as there are
    matches with it as the winner and as many losses as there are
    matches in which it is the first opponent other than the winner; an
    id outside the map has neither, whatever points it holds. *)
Theorem wins_and_losses_counted ms tm t k :
  ranking_table ms tm = inr t ->
  wins (standing_of k t) = (bump (tracked tm k) * count_matches (won_by k) ms)%nat /\
  losses (standing_of k t) = (bump (tracked tm k) * count_matches (lost_by k) ms)%nat.
Proof.
  intros Ht.
  destruct (field_table wins (fun _ _ => eq_refl) (fun _ _ => eq_refl) ms tm t k Ht)
    as (rd & o & Hrun & ->).
  destruct (field_table losses (fun _ _ => eq_refl) (fun _ _ => eq_refl) ms tm t k Ht)
    as (rd' & o' & Hrun' & ->).
  rewrite Hrun in Hrun'. injection Hrun' as <- <-.
  destruct (first_pass_counts _ _ _ _ _ Hrun k) as (_ & Hw & Hl).
  destruct (blank_init tm k) as (Hw0 & Hl0 & _).
  rewrite Hw0, Hl0, contains_init in *. simpl in *. split; assumption.
Qed.

Lemma wins_and_losses_counted_witness :
  exists t,
    ranking_table [bo3_1_beats_2; team_2_beats_1] teams_A_B = inr t /\
    wins (standing_of 1 t) = 1%nat /\ losses (standing_of 1 t) = 1%nat.
Proof.
  eexists. split; [vm_compute; reflexivity|].
  apply (wins_and_losses_counted [bo3_1_beats_2; team_2_beats_1] teams_A_B _ 1).
  vm_compute. reflexivity.
Defined.

(** ** Which ids have a standing *)

Lemma scored_win_iff k m :
  scored_win k m = true <->
  exists l, resolve m = Some (k, l) /\ truthy k && truthy l = true.
Proof.
  unfold scored_win. destruct (resolve m) as [[w l]|]; [|split; [discriminate|]].
  - rewrite andb_true_iff, Z.eqb_eq. split.
    + intros [-> H]. eauto.
    + intros (l' & [= -> ->] & H). split; [reflexivity | exact H].
  - intros (l & H & _). discriminate.
Qed.

Lemma second_pass_step_cases winrates rd m :
  (second_pass_step winrates rd m = rd /\ forall k, scored_win k m = false) \/
  (exists w f, second_pass_step winrates rd m = modify w f rd /\
               forall k, scored_win k m = true <-> k = w).
Proof.
  unfold second_pass_step, scored_win, resolve.
  destruct (winner m) as [w|]; [|left; split; reflexivity].
  destruct (next_other w (opponent_ids m)) as [l|]; [|left; split; reflexivity].
  destruct (truthy w && truthy l).
  - right. eexists w, _. split; [reflexivity|]. intros k.
    rewrite andb_true_r, Z.eqb_eq. split; congruence.
  - left. split; [reflexivity|]. intros k. apply andb_false_r.
Qed.

Lemma keys_second_pass winrates ms rd :
  NoDup (keys rd) ->
  exists extra,
    keys (second_pass winrates ms rd) = keys rd ++ extra /\
    NoDup (keys rd ++ extra) /\
    forall k, k ∈ extra <->
              (k ∉ keys rd) /\ exists m, m ∈ ms /\ scored_win k m = true.
Proof.
  unfold second_pass. revert rd. induction ms as [|m ms IH]; intros rd Hnd; simpl.
  - exists []. rewrite app_nil_r. split; [reflexivity|]. split; [exact Hnd|].
    intros k. split; [intros H; inversion H|].
    intros (_ & m & Hm & _). inversion Hm.
  - destruct (second_pass_step_cases winrates rd m) as [[-> Hno]|(w & f & -> & Hw)].
    + destruct (IH rd Hnd) as (extra & Hk & Hnd' & Hx).
      exists extra. split; [exact Hk|]. split; [exact Hnd'|].
      intros k. rewrite Hx. split; intros (Hnot & m' & Hm' & Hs); split; try exact Hnot.
      * exists m'. split; [apply list_elem_of_further; exact Hm' | exact Hs].
      * apply elem_of_cons in Hm' as [->|Hm']; [rewrite Hno in Hs; discriminate|].
        exists m'. split; assumption.
    + destruct (IH (modify w f rd) (NoDup_keys_modify w f rd Hnd))
        as (extra & Hk & Hnd' & Hx).
      rewrite keys_modify in Hk, Hnd', Hx.
      destruct (contains w rd) eqn:Hc.
      * apply contains_keys in Hc.
        exists extra. split; [exact Hk|]. split; [exact Hnd'|].
        intros k. rewrite Hx. split; intros (Hnot & m' & Hm' & Hs); split; try exact Hnot.
        -- exists m'. split; [apply list_elem_of_further; exact Hm' | exact Hs].
        -- apply elem_of_cons in Hm' as [->|Hm'].
           ++ apply Hw in Hs. subst. contradiction.
           ++ exists m'. split; assumption.
      * apply contains_false_keys in Hc.
        exists (w :: extra). rewrite <- app_assoc in Hk, Hnd'. simpl in Hk, Hnd'.
        split; [exact Hk|]. split; [exact Hnd'|].
        intros k. rewrite elem_of_cons, Hx, elem_of_app, list_elem_of_singleton. split.
        -- intros [->|(Hnot & m' & Hm' & Hs)].
           ++ split; [exact Hc|]. exists m. split; [apply list_elem_of_here|].
              apply Hw. reflexivity.
           ++ split; [tauto|]. exists m'.
              split; [apply list_elem_of_further; exact Hm' | exact Hs].
        -- intros (Hnot & m' & Hm' & Hs).
           destruct (decide (k = w)) as [->|Hne]; [left; reflexivity|]. right.
           split; [tauto|]. apply elem_of_cons in Hm' as [->|Hm'].
           ++ apply Hw in Hs. contradiction.
           ++ exists m'. split; assumption.
Qed.

Lemma keys_normalize rd : keys (map normalize_item rd) = keys rd.
Proof. unfold keys. rewrite map_map. reflexivity. Qed.

Lemma keys_init_NoDup tm : NoDup (universe tm) -> keys (init_ranking tm) = universe tm.
Proof.
  intros H. rewrite init_ranking_NoDup by exact H.
  unfold keys, universe. rewrite map_map. reflexivity.
Qed.

Lemma keys_ranking_table ms tm t :
  NoDup (universe tm) ->
  ranking_table ms tm = inr t ->
  exists rd winrates,
    keys rd = universe tm /\ keys t = keys (second_pass winrates ms rd).
Proof.
  intros Hnd Ht. apply ranking_table_inv in Ht as (rd & o & Hrun & ->).
  pose proof (keys_first_pass _ _ _ Hrun) as Hk. simpl in Hk.
  rewrite keys_init_NoDup in Hk by exact Hnd.
  exists rd, (winrates_map rd ∅). split; [exact Hk | apply keys_normalize].
Qed.

(** X4.  The final table holds the ids of the team map, in the order of the
    map, followed by the ids outside the map that won a scored match,
    each id once. *)
Theorem table_keys ms tm t :
  NoDup (universe tm) ->
  ranking_table ms tm = inr t ->
  NoDup (keys t) /\
  exists extra,
    keys t = universe tm ++ extra /\
    forall k, k ∈ extra <->
              (k ∉ universe tm) /\ exists m, m ∈ ms /\ scored_win k m = true.
Proof.
  intros Hnd Ht.
  destruct (keys_ranking_table ms tm t Hnd Ht) as (rd & winrates & Hk & ->).
  destruct (keys_second_pass winrates ms rd) as (extra & He & Hnd' & Hx).
  { rewrite Hk. exact Hnd. }
  rewrite He, Hk in *. split; [exact Hnd'|].
  exists extra. split; [reflexivity | exact Hx].
Qed.

Lemma table_keys_witness :
  exists t,
    ranking_table [outsider_beats_1] teams_A_B = inr t /\
    NoDup (keys t) /\
    exists extra,
      keys t = [1; 2] ++ extra /\
      forall k, k ∈ extra <->
                (k ∉ [1; 2]) /\
                exists m, m ∈ [outsider_beats_1] /\ scored_win k m = true.
Proof.
  eexists. split; [vm_compute; reflexivity|].
  apply (table_keys [outsider_beats_1] teams_A_B).
  - apply (bool_decide_unpack _). vm_compute. exact I.
  - vm_compute. reflexivity.
Defined.

(** ** One standing per team *)

Lemma name_count_result k rd m :
  name (standing_of k (count_result rd m)) = name (standing_of k rd).
Proof.
  unfold count_result. destruct (winner m) as [w|]; [|reflexivity].
  destruct (next_other w (opponent_ids m)) as [l|]; simpl;
    rewrite !standing_of_modify_if_present;
    repeat match goal with |- context [if ?b then _ else _] => destruct b end;
    reflexivity.
Qed.

Lemma name_credit_games k ids n rd :
  name (standing_of k (credit_games ids n rd)) = name (standing_of k rd).
Proof.
  unfold credit_games. destruct ids as [|a [|b [|c ids]]]; try reflexivity.
  rewrite !standing_of_modify_if_present.
  repeat match goal with |- context [if ?b then _ else _] => destruct b end; reflexivity.
Qed.

Lemma name_first_pass ms rd o rd' o' k :
  first_pass ms (rd, o) = inr (rd', o') ->
  name (standing_of k rd') = name (standing_of k rd).
Proof.
  revert rd o. induction ms as [|m ms IH]; intros rd o; cbn [first_pass].
  - intros [= <- <-]. reflexivity.
  - rewrite first_pass_step_eq.
    destruct (opponents_after o m) as [ids|]; simpl; [|discriminate].
    intros Hrun. rewrite (IH _ _ Hrun), name_credit_games. apply name_count_result.
Qed.

Lemma name_init tm k n :
  NoDup (universe tm) -> (k, n) ∈ tm -> name (standing_of k (init_ranking tm)) = n.
Proof.
  intros Hnd Hin. rewrite init_ranking_NoDup by exact Hnd.
  unfold standing_of.
  induction tm as [|[i n'] tm IH]; [inversion Hin|].
  simpl. inversion Hnd as [|? ? Hi Hnd']; subst.
  destruct (Z.eqb_spec k i) as [->|Hne].
  - apply elem_of_cons in Hin as [[= ->]|Hin]; [reflexivity|].
    exfalso. apply Hi. apply list_elem_of_fmap. exists (i, n). split; [reflexivity | exact Hin].
  - apply elem_of_cons in Hin as [[= -> ->]|Hin]; [contradiction|].
    apply IH; assumption.
Qed.

Lemma values_by_key rd :
  NoDup (keys rd) -> map snd rd = map (fun k => standing_of k rd) (keys rd).
Proof.
  unfold keys, standing_of. induction rd as [|[k s] rd IH]; intros Hnd; simpl;
    [reflexivity|].
  inversion Hnd as [|? ? Hk Hnd']; subst. rewrite Z.eqb_refl. simpl. f_equal.
  rewrite (IH Hnd'). apply map_ext_in. intros k' Hk'.
  destruct (Z.eqb_spec k' k) as [->|Hne]; [|reflexivity].
  exfalso. apply Hk. apply list_elem_of_In. exact Hk'.
Qed.

Lemma keys_of_tracked_winners ms tm t :
  NoDup (universe tm) ->
  (forall m k, m ∈ ms -> scored_win k m = true -> k ∈ universe tm) ->
  ranking_table ms tm = inr t ->
  keys t = universe tm.
Proof.
  intros Hnd Hwin Ht.
  destruct (keys_ranking_table ms tm t Hnd Ht) as (rd & winrates & Hk & ->).
  destruct (keys_second_pass winrates ms rd) as (extra & He & _ & Hextra).
  { rewrite Hk. exact Hnd. }
  destruct extra as [|k extra]; [rewrite He, app_nil_r; exact Hk|]. exfalso.
  destruct (proj1 (Hextra k) (list_elem_of_here _ _)) as (Hnot & m & Hm & Hs).
  apply Hnot. rewrite Hk. eapply Hwin; eassumption.
Qed.

Lemma names_of_tracked_winners ms tm t :
  NoDup (universe tm) ->
  (forall m k, m ∈ ms -> scored_win k m = true -> k ∈ universe tm) ->
  ranking_table ms tm = inr t ->
  map name (map snd t) = map snd tm.
Proof.
  intros Hnd Hwin Ht.
  pose proof (keys_of_tracked_winners ms tm t Hnd Hwin Ht) as Hkeys.
  rewrite (values_by_key t), Hkeys by (rewrite Hkeys; exact Hnd).
  unfold universe. rewrite !map_map.
  apply map_ext_in. intros [k n] Hin. simpl.
  destruct (field_table name (fun _ _ => eq_refl) (fun _ _ => eq_refl) ms tm t k Ht)
    as (rd & o & Hfirst & ->).
  rewrite (name_first_pass _ _ _ _ _ k Hfirst).
  apply name_init; [exact Hnd | apply list_elem_of_In; exact Hin].
Qed.

(** X5.  When every scored match is won by a team of the map, the result has
    exactly one standing per team of the map, under the team's name. *)
Theorem one_standing_per_team ms tm l :
  NoDup (universe tm) ->
  (forall m k, m ∈ ms -> scored_win k m = true -> k ∈ universe tm) ->
  calculate_weighted_rankings ms tm = inr l ->
  length l = length tm /\ map name l ≡ₚ map snd tm.
Proof.
  intros Hnd Hwin Hrun.
  apply calculate_weighted_rankings_inv in Hrun as (t & Ht & ->).
  pose proof (names_of_tracked_winners ms tm t Hnd Hwin Ht) as Hnames.
  rewrite sort_desc_perm. split; [|rewrite Hnames; reflexivity].
  rewrite <- (length_map name), Hnames. apply length_map.
Qed.

Lemma one_standing_per_team_witness :
  exists l,
    calculate_weighted_rankings [bo3_1_beats_2] teams_A_B = inr l /\
    length l = 2%nat /\ map name l ≡ₚ ["A"; "B"].
Proof.
  eexists. split; [vm_compute; reflexivity|].
  apply (one_standing_per_team [bo3_1_beats_2] teams_A_B).
  - apply (bool_decide_unpack _). vm_compute. exact I.
  - intros m k Hm Hs. apply list_elem_of_singleton in Hm. subst m.
    apply scored_win_iff in Hs as (lo & Hres & _).
    apply resolve_inv in Hres as [Hw _]. injection Hw as <-.
    apply list_elem_of_here.
  - vm_compute. reflexivity.
Defined.

(** ** The shape of the head-to-head records *)

Lemma h2h_record_keys ms a b record k :
  calculate_head_to_head_records ms !! (a, b) = Some record ->
  is_Some (record !! k) -> k = a \/ k = b.
Proof.
  revert a b record k. induction ms as [|m ms IH] using rev_ind; intros a b record k.
  - unfold calculate_head_to_head_records. simpl. rewrite lookup_empty. discriminate.
  - rewrite h2h_snoc. set (h := calculate_head_to_head_records ms) in *.
    destruct (scored m) eqn:Hsc.
    2:{ rewrite h2h_step_unscored by exact Hsc. apply IH. }
    unfold scored in Hsc. destruct (resolve m) as [[w l]|] eqn:Hres; [|discriminate].
    rewrite (h2h_step_scored h m w l Hres Hsc). cbv zeta.
    destruct (decide (sorted_pair w l = (a, b))) as [Heq|Hneq].
    + rewrite Heq, lookup_insert_eq. intros [= <-].
      rewrite !lookup_insert.
      repeat case_decide; subst;
        try (intros _; apply sorted_pair_cases in Heq as [(? & ? & _)|(? & ? & _)];
             subst; auto; fail).
      destruct (h !! (a, b)) as [r|] eqn:E; simpl.
      * apply (IH a b r k E).
      * rewrite lookup_empty. intros [? ?]. discriminate.
    + rewrite lookup_insert_ne by exact Hneq. apply IH.
Qed.

(** X6.  Every pair the mapping holds is a sorted pair of two different
    non-zero ids; its record counts wins for these two ids and no
    other, and at least one win in all. *)
Theorem h2h_record_shape ms a b record :
  calculate_head_to_head_records ms !! (a, b) = Some record ->
  a < b /\ a <> 0 /\ b <> 0 /\
  dom record = ({[a; b]} : gset Z) /\
  (0 < wins_in record a + wins_in record b)%nat.
Proof.
  intros Hkey. pose proof (h2h_invariant_holds ms a b) as Hinv.
  rewrite Hkey in Hinv. destruct Hinv as (Hlt & Ha & Hb & Hsa & Hsb & Hsum & Hpos).
  split; [exact Hlt|]. split; [exact Ha|]. split; [exact Hb|]. split; [|lia].
  apply set_eq. intros k. rewrite elem_of_dom, elem_of_union, !elem_of_singleton.
  split.
  - apply (h2h_record_keys ms a b record k Hkey).
  - intros [->| ->]; assumption.
Qed.

Lemma h2h_record_shape_witness :
  exists record,
    calculate_head_to_head_records [bo3_1_beats_2; team_2_beats_1] !! (1, 2)
    = Some record /\
    1 < 2 /\ 1 <> 0 /\ 2 <> 0 /\
    dom record = ({[1; 2]} : gset Z) /\
    (0 < wins_in record 1 + wins_in record 2)%nat.
Proof.
  eexists. split; [vm_compute; reflexivity|].
  apply (h2h_record_shape [bo3_1_beats_2; team_2_beats_1] 1 2).
  vm_compute. reflexivity.
Defined.

(** ** League ids *)

Lemma first_pass_with_league relabel ms st :
  first_pass (map (fun m => with_league (relabel m) m) ms) st = first_pass ms st.
Proof.
  revert st. induction ms as [|m ms IH]; intros [rd o]; cbn [first_pass map];
    [reflexivity|].
  change (first_pass_step (rd, o) (with_league (relabel m) m))
    with (first_pass_step (rd, o) m).
  destruct (first_pass_step (rd, o) m) as [e|st']; simpl; [reflexivity | apply IH].
Qed.

Lemma second_pass_step_with_league winrates rd lg m :
  second_pass_step winrates rd (with_league lg m) = second_pass_step winrates rd m.
Proof.
  unfold second_pass_step. cbn [winner with_league].
  destruct (winner m) as [w|]; [|reflexivity].
  change (opponent_ids (with_league lg m)) with (opponent_ids m).
  destruct (next_other w (opponent_ids m)) as [l|]; [|reflexivity].
  destruct (truthy w && truthy l); [|reflexivity].
  unfold points_awarded. cbn [league games with_league].
  rewrite !league_weight_one. reflexivity.
Qed.

Lemma second_pass_with_league winrates relabel ms rd :
  second_pass winrates (map (fun m => with_league (relabel m) m) ms) rd
  = second_pass winrates ms rd.
Proof.
  unfold second_pass. revert rd. induction ms as [|m ms IH]; intros rd; simpl;
    [reflexivity|].
  rewrite second_pass_step_with_league. apply IH.
Qed.

(** X7.  With every entry of [LEAGUE_WEIGHTS] commented out, the league of a
    match has no effect: changing the league ids of the matches in any
    way changes neither the rankings, errors included, nor the
    head-to-head records. *)
Theorem league_ids_have_no_effect relabel ms tm :
  let ms' := map (fun m => with_league (relabel m) m) ms in
  calculate_weighted_rankings ms' tm = calculate_weighted_rankings ms tm /\
  calculate_head_to_head_records ms' = calculate_head_to_head_records ms.
Proof.
  cbv zeta. split.
  - unfold calculate_weighted_rankings. rewrite !ranking_table_eq.
    rewrite first_pass_with_league.
    destruct (first_pass ms (init_ranking tm, None)) as [e|st]; [reflexivity|].
    rewrite second_pass_with_league. reflexivity.
  - unfold calculate_head_to_head_records. generalize (∅ : gmap (Z * Z) (gmap Z nat)).
    induction ms as [|m ms IH]; intros h; simpl; [reflexivity|].
    change (h2h_step h (with_league (relabel m) m)) with (h2h_step h m). apply IH.
Qed.

(** * The fetcher *)

(** ** Dictionaries *)

Section Dict.

Context {K V : Type} `{EqDecision K}.
Implicit Types (k : K) (v : V) (d : list (K * V)).

Lemma getitem_elem k d : k ∈ map fst d <-> exists v, getitem k d = inr v.
Proof.
  induction d as [|[k' v'] d IH]; simpl.
  - split; [intros H; inversion H | intros [v H]; discriminate].
  - rewrite elem_of_cons, IH. destruct (decide (k = k')) as [->|Hne].
    + split; eauto.
    + split; [intros [?|?]; [contradiction | assumption] | auto].
Qed.

Lemma getitem_missing k d : k ∉ map fst d <-> getitem k d = inl KeyError.
Proof.
  induction d as [|[k' v'] d IH]; simpl.
  - split; [reflexivity | intros _ H; inversion H].
  - rewrite not_elem_of_cons, IH. destruct (decide (k = k')) as [->|Hne].
    + split; [tauto | discriminate].
    + tauto.
Qed.

Lemma getitem_In k v d : getitem k d = inr v -> (k, v) ∈ d.
Proof.
  induction d as [|[k' v'] d IH]; simpl; [discriminate|].
  destruct (decide (k = k')) as [->|Hne].
  - intros [= ->]. apply list_elem_of_here.
  - intros H. apply list_elem_of_further, IH, H.
Qed.

Lemma keys_setitem k v d :
  map fst (setitem k v d) = if bool_decide (k ∈ map fst d) then map fst d else map fst d ++ [k].
Proof.
  induction d as [|[k' v'] d IH]; simpl; [reflexivity|].
  destruct (decide (k = k')) as [->|Hne]; simpl.
  - rewrite bool_decide_eq_true_2 by apply list_elem_of_here. reflexivity.
  - rewrite IH. destruct (decide (k ∈ map fst d)) as [Hin|Hout].
    + rewrite !bool_decide_eq_true_2; [reflexivity | apply list_elem_of_further; exact Hin | exact Hin].
    + rewrite !bool_decide_eq_false_2; [reflexivity | | exact Hout].
      rewrite not_elem_of_cons. tauto.
Qed.

Lemma getitem_setitem k k' v d :
  getitem k' (setitem k v d) = if decide (k' = k) then inr v else getitem k' d.
Proof.
  induction d as [|[k0 v0] d IH]; simpl.
  - destruct (decide (k' = k)); reflexivity.
  - destruct (decide (k = k0)) as [->|Hne]; simpl.
    + destruct (decide (k' = k0)); reflexivity.
    + rewrite IH. destruct (decide (k' = k0)) as [->|Hne'].
      * rewrite decide_False by congruence. reflexivity.
      * reflexivity.
Qed.

Lemma NoDup_keys_setitem k v d : NoDup (map fst d) -> NoDup (map fst (setitem k v d)).
Proof.
  intros Hnd. rewrite keys_setitem. case_bool_decide as Hin; [exact Hnd|].
  apply NoDup_app. split; [exact Hnd|]. split; [|apply NoDup_singleton].
  intros x Hx Hx'. apply list_elem_of_singleton in Hx'. subst. contradiction.
Qed.

Lemma setitem_fresh k v d : k ∉ map fst d -> setitem k v d = d ++ [(k, v)].
Proof.
  induction d as [|[k' v'] d IH]; simpl; intros Hout; [reflexivity|].
  apply not_elem_of_cons in Hout as [Hne Hout].
  rewrite decide_False by exact Hne. rewrite IH by exact Hout. reflexivity.
Qed.

End Dict.

Lemma id_name_map_keys_acc items (d : name_map) :
  NoDup (map fst d) ->
  NoDup (map fst (fold_left (fun d item => setitem (entity_id (snd item)) (fst item) d) items d)) /\
  forall k, k ∈ map fst (fold_left (fun d item => setitem (entity_id (snd item)) (fst item) d) items d)
            <-> k ∈ map fst d \/ k ∈ map (fun item => entity_id (snd item)) items.
Proof.
  revert d. induction items as [|[n t] items IH]; intros d Hnd; simpl.
  - split; [exact Hnd|]. intros k. rewrite elem_of_nil. tauto.
  - destruct (IH (setitem (entity_id t) n d)) as [H1 H2];
      [apply NoDup_keys_setitem; exact Hnd|].
    split; [exact H1|]. intros k. rewrite H2, keys_setitem, elem_of_cons.
    case_bool_decide as Hin.
    + split; [tauto|]. intros [?|[->|?]]; tauto.
    + rewrite elem_of_app, list_elem_of_singleton. tauto.
Qed.

Lemma id_name_map_NoDup items : NoDup (universe (id_name_map items)).
Proof. apply (id_name_map_keys_acc items []). constructor. Qed.

Lemma id_name_map_universe items k :
  k ∈ universe (id_name_map items) <-> k ∈ map (fun item => entity_id (snd item)) items.
Proof.
  unfold universe, id_name_map.
  rewrite (proj2 (id_name_map_keys_acc items [] (NoDup_nil_2 (A:=Z)))). simpl.
  rewrite elem_of_nil. tauto.
Qed.

(** ** The filter *)

Lemma any_opponent_is_true t opps :
  any_opponent_is t opps = inr true -> t ∈ omap (fun opp => opp) opps.
Proof.
  induction opps as [|[i|] opps IH]; simpl; try discriminate.
  destruct (Z.eqb_spec i t) as [->|Hne]; intros H.
  - apply list_elem_of_here.
  - apply list_elem_of_further, IH, H.
Qed.

Lemma any_opponent_is_well_formed t opps :
  Forall is_Some opps ->
  any_opponent_is t opps = inr (bool_decide (t ∈ omap (fun opp => opp) opps)).
Proof.
  induction 1 as [|o opps [i ->] Hall IH]; simpl; [reflexivity|].
  destruct (Z.eqb_spec i t) as [->|Hne].
  - rewrite bool_decide_eq_true_2 by apply list_elem_of_here. reflexivity.
  - rewrite IH. f_equal. apply bool_decide_ext. rewrite elem_of_cons. split; [auto|].
    intros [?|?]; [congruence | assumption].
Qed.

Lemma lists_both_true t1 t2 m :
  lists_both t1 t2 m = inr true -> t1 ∈ opponent_ids m /\ t2 ∈ opponent_ids m.
Proof.
  unfold lists_both, opponent_ids.
  destruct (any_opponent_is t1 (opponents m)) as [e|[|]] eqn:E1; simpl; try discriminate.
  intros E2. split; apply any_opponent_is_true; assumption.
Qed.

Lemma lists_both_well_formed t1 t2 m :
  well_formed m ->
  lists_both t1 t2 m =
  inr (bool_decide (t1 ∈ opponent_ids m /\ t2 ∈ opponent_ids m)).
Proof.
  intros Hwf. unfold lists_both, opponent_ids.
  rewrite !any_opponent_is_well_formed by exact Hwf. simpl.
  repeat case_bool_decide; try reflexivity; tauto.
Qed.

Lemma filter_pair_sound t1 t2 ms fs :
  filter_pair t1 t2 ms = inr fs ->
  sublist fs ms /\ Forall (fun m => t1 ∈ opponent_ids m /\ t2 ∈ opponent_ids m) fs.
Proof.
  revert fs. induction ms as [|m ms IH]; simpl; intros fs.
  - intros [= <-]. split; constructor.
  - destruct (lists_both t1 t2 m) as [e|keep] eqn:Ek; simpl; [discriminate|].
    destruct (filter_pair t1 t2 ms) as [e|kept]; simpl; [discriminate|].
    destruct (IH kept eq_refl) as [Hsub Hall]. intros [= <-]. destruct keep.
    + split; [constructor; exact Hsub|]. constructor; [|exact Hall].
      apply lists_both_true. exact Ek.
    + split; [constructor; exact Hsub | exact Hall].
Qed.

Lemma filter_pair_well_formed t1 t2 ms :
  Forall well_formed ms ->
  filter_pair t1 t2 ms =
  inr (filter (fun m => t1 ∈ opponent_ids m /\ t2 ∈ opponent_ids m) ms).
Proof.
  induction 1 as [|m ms Hm Hall IH]; simpl; [reflexivity|].
  rewrite lists_both_well_formed by exact Hm. rewrite IH. simpl.
  rewrite filter_cons. case_bool_decide as H.
  - rewrite decide_True by exact H. reflexivity.
  - rewrite decide_False by exact H. reflexivity.
Qed.

Lemma fetch_matches_for_pair_inv api t1 t2 tm ms :
  fetch_matches_for_pair api t1 t2 tm = inr ms ->
  match api t1 t2 with
  | Reply body => filter_pair t1 t2 body = inr ms
  | RequestException _ => ms = []
  end.
Proof.
  unfold fetch_matches_for_pair. destruct (api t1 t2) as [e|body].
  - destruct (pair_names t1 t2 tm); simpl; [discriminate|].
    intros [= <-]. reflexivity.
  - destruct (filter_pair t1 t2 body) as [e|[|m fs]]; simpl; [discriminate| |].
    + intros [= <-]. reflexivity.
    + destruct (pair_names t1 t2 tm); simpl; [discriminate|].
      intros [= <-]. reflexivity.
Qed.

(** X8.  What [fetch_matches_for_pair] returns lists both teams among the
    opponents of every match and is a selection, in order, of the
    reply; after a failed request it is empty. *)
Theorem fetch_matches_sound api t1 t2 tm ms :
  fetch_matches_for_pair api t1 t2 tm = inr ms ->
  Forall (fun m => t1 ∈ opponent_ids m /\ t2 ∈ opponent_ids m) ms /\
  match api t1 t2 with
  | Reply body => sublist ms body
  | RequestException _ => ms = []
  end.
Proof.
  intros Hrun. apply fetch_matches_for_pair_inv in Hrun.
  destruct (api t1 t2) as [e|body].
  - subst ms. split; [constructor | reflexivity].
  - destruct (filter_pair_sound _ _ _ _ Hrun) as [Hsub Hall].
    split; [exact Hall | exact Hsub].
Qed.

Lemma fetch_matches_sound_witness :
  exists ms,
    fetch_matches_for_pair provider_1_2 1 2 teams_A_B = inr ms /\
    Forall (fun m => 1 ∈ opponent_ids m /\ 2 ∈ opponent_ids m) ms /\
    sublist ms [bo3_1_beats_2; team_1_beats_7; team_2_beats_1].
Proof.
  eexists. split; [vm_compute; reflexivity|].
  apply (fetch_matches_sound provider_1_2 1 2 teams_A_B). vm_compute. reflexivity.
Defined.

Lemma pair_names_known t1 t2 tm :
  t1 ∈ universe tm -> t2 ∈ universe tm -> exists ns, pair_names t1 t2 tm = inr ns.
Proof.
  unfold universe, pair_names. intros H1 H2.
  apply getitem_elem in H1 as [n1 ->]. apply getitem_elem in H2 as [n2 ->].
  simpl. eauto.
Qed.

Lemma fetch_matches_for_pair_known api t1 t2 tm :
  t1 ∈ universe tm -> t2 ∈ universe tm ->
  fetch_matches_for_pair api t1 t2 tm =
  match api t1 t2 with
  | Reply body => filter_pair t1 t2 body
  | RequestException _ => inr []
  end.
Proof.
  intros H1 H2. destruct (pair_names_known t1 t2 tm H1 H2) as [ns Hns].
  unfold fetch_matches_for_pair. destruct (api t1 t2) as [e|body].
  - rewrite Hns. reflexivity.
  - destruct (filter_pair t1 t2 body) as [e|[|m fs]]; simpl; try reflexivity.
    rewrite Hns. reflexivity.
Qed.

(** X9.  When every opponent entry of the reply carries an id and both teams
    are in the name map, the function returns exactly the matches of the
    reply that list both teams; when the request fails, the empty
    list. *)
Theorem fetch_matches_complete api t1 t2 tm :
  t1 ∈ universe tm -> t2 ∈ universe tm ->
  match api t1 t2 with
  | Reply body =>
      Forall well_formed body ->
      fetch_matches_for_pair api t1 t2 tm =
      inr (filter (fun m => t1 ∈ opponent_ids m /\ t2 ∈ opponent_ids m) body)
  | RequestException _ => fetch_matches_for_pair api t1 t2 tm = inr []
  end.
Proof.
  intros H1 H2. rewrite (fetch_matches_for_pair_known api t1 t2 tm H1 H2).
  destruct (api t1 t2) as [e|body]; [reflexivity|].
  intros Hwf. apply filter_pair_well_formed. exact Hwf.
Qed.

Lemma fetch_matches_complete_witness :
  fetch_matches_for_pair provider_1_2 1 2 teams_A_B =
  inr (filter (fun m => 1 ∈ opponent_ids m /\ 2 ∈ opponent_ids m)
         [bo3_1_beats_2; team_1_beats_7; team_2_beats_1]) /\
  fetch_matches_for_pair provider_1_2 2 1 teams_A_B = inr [].
Proof.
  split.
  - apply (fetch_matches_complete provider_1_2 1 2 teams_A_B).
    + apply (bool_decide_unpack _). vm_compute. exact I.
    + apply (bool_decide_unpack _). vm_compute. exact I.
    + repeat constructor; eexists; reflexivity.
  - apply (fetch_matches_complete provider_1_2 2 1 teams_A_B).
    + apply (bool_decide_unpack _). vm_compute. exact I.
    + apply (bool_decide_unpack _). vm_compute. exact I.
Defined.

(** ** All pairs *)

Lemma combinations2_elem {A} (l : list A) a b :
  (a, b) ∈ combinations2 l -> a ∈ l /\ b ∈ l.
Proof.
  induction l as [|x l IH]; simpl; [intros H; inversion H|].
  rewrite elem_of_app. intros [H|H].
  - apply list_elem_of_fmap in H as (y & [= -> ->] & Hy).
    split; [apply list_elem_of_here | apply list_elem_of_further; exact Hy].
  - destruct (IH H). split; apply list_elem_of_further; assumption.
Qed.

Lemma combinations2_distinct {A} (l : list A) a b :
  NoDup l -> (a, b) ∈ combinations2 l -> a <> b.
Proof.
  induction 1 as [|x l Hx Hnd IH]; simpl; [intros H; inversion H|].
  rewrite elem_of_app. intros [H|H].
  - apply list_elem_of_fmap in H as (y & [= -> ->] & Hy). intros <-. contradiction.
  - apply IH. exact H.
Qed.

Lemma combinations2_length {A} (l : list A) :
  (2 * length (combinations2 l) = length l * (length l - 1))%nat.
Proof.
  induction l as [|x l IH]; simpl; [reflexivity|].
  rewrite length_app, length_map. nia.
Qed.

Lemma fetch_pairs_sound api tm pairs acc all :
  fetch_pairs api tm pairs acc = inr all ->
  exists more,
    all = acc ++ more /\
    Forall (fun m => exists a b, (a, b) ∈ pairs /\
                                 a ∈ opponent_ids m /\ b ∈ opponent_ids m) more.
Proof.
  revert acc. induction pairs as [|[a b] pairs IH]; simpl; intros acc.
  - intros [= <-]. exists []. rewrite app_nil_r. split; [reflexivity | constructor].
  - destruct (fetch_matches_for_pair api a b tm) as [e|ms] eqn:E; simpl; [discriminate|].
    intros H. destruct (IH _ H) as (more & -> & Hmore).
    exists (ms ++ more). rewrite app_assoc. split; [reflexivity|].
    apply Forall_app. split.
    + apply fetch_matches_for_pair_inv in E.
      destruct (api a b) as [e|body]; [subst ms; constructor|].
      destruct (filter_pair_sound _ _ _ _ E) as [_ Hall].
      eapply Forall_impl; [exact Hall|]. intros m [Ha Hb]. simpl in *.
      exists a, b. split; [apply list_elem_of_here | tauto].
    + eapply Forall_impl; [exact Hmore|]. intros m (a' & b' & Hin & Hab).
      exists a', b'. split; [apply list_elem_of_further; exact Hin | exact Hab].
Qed.

Lemma get_all_head_to_head_matches_inv api items ms tm :
  get_all_head_to_head_matches api (TeamsDict items) = inr (ms, tm) ->
  tm = id_name_map items /\
  Forall (fun m => exists a b,
            (a, b) ∈ combinations2 (map (fun item => entity_id (snd item)) items) /\
            a ∈ opponent_ids m /\ b ∈ opponent_ids m) ms.
Proof.
  unfold get_all_head_to_head_matches.
  destruct (fetch_pairs api (id_name_map items) _ []) as [e|all] eqn:E; simpl;
    [discriminate|].
  intros [= <- <-]. split; [reflexivity|].
  destruct (fetch_pairs_sound _ _ _ _ _ E) as (more & -> & Hmore). exact Hmore.
Qed.

Lemma listed_pair_tracked items a b :
  (a, b) ∈ combinations2 (map (fun item => entity_id (snd item)) items) ->
  a ∈ universe (id_name_map items) /\ b ∈ universe (id_name_map items) /\
  (NoDup (map (fun item => entity_id (snd item)) items) -> a <> b).
Proof.
  intros Hin. pose proof (combinations2_elem _ _ _ Hin) as [Ha Hb].
  rewrite !id_name_map_universe. split; [exact Ha|]. split; [exact Hb|].
  intros Hnd. eapply combinations2_distinct; eassumption.
Qed.

(** X10.  The name map [get_all_head_to_head_matches] returns holds each id
    of the file once, and the matches it returns each list, among their
    opponents, two ids of the file: two different ids when the ids of
    the file are all different. *)
Theorem all_matches_between_listed_teams api items ms tm :
  get_all_head_to_head_matches api (TeamsDict items) = inr (ms, tm) ->
  NoDup (universe tm) /\
  (forall k, k ∈ universe tm <-> k ∈ map (fun item => entity_id (snd item)) items) /\
  Forall (fun m => exists a b,
            a ∈ universe tm /\ b ∈ universe tm /\
            a ∈ opponent_ids m /\ b ∈ opponent_ids m /\
            (NoDup (map (fun item => entity_id (snd item)) items) -> a <> b)) ms.
Proof.
  intros Hrun. apply get_all_head_to_head_matches_inv in Hrun as [-> Hall].
  split; [apply id_name_map_NoDup|]. split; [apply id_name_map_universe|].
  eapply Forall_impl; [exact Hall|]. intros m (a & b & Hin & Ha & Hb). simpl.
  destruct (listed_pair_tracked items a b Hin) as (Ha' & Hb' & Hne).
  exists a, b. repeat split; assumption.
Qed.

Lemma all_matches_between_listed_teams_witness :
  exists ms tm,
    get_all_head_to_head_matches provider_1_2 (TeamsDict file_A_B) = inr (ms, tm) /\
    NoDup (universe tm) /\
    (forall k, k ∈ universe tm <-> k ∈ [1; 2]) /\
    Forall (fun m => exists a b,
              a ∈ universe tm /\ b ∈ universe tm /\
              a ∈ opponent_ids m /\ b ∈ opponent_ids m /\
              (NoDup [1; 2] -> a <> b)) ms.
Proof.
  eexists. eexists. split; [vm_compute; reflexivity|].
  apply (all_matches_between_listed_teams provider_1_2 file_A_B).
  vm_compute. reflexivity.
Defined.

Lemma fetch_pairs_runs api tm pairs acc :
  (forall a b, (a, b) ∈ pairs -> a ∈ universe tm /\ b ∈ universe tm) ->
  (forall a b body, api a b = Reply body -> Forall well_formed body) ->
  exists all, fetch_pairs api tm pairs acc = inr all.
Proof.
  intros Hp Hwf. revert acc. induction pairs as [|[a b] pairs IH]; simpl; intros acc.
  - eauto.
  - destruct (Hp a b (list_elem_of_here _ _)) as [Ha Hb].
    rewrite (fetch_matches_for_pair_known api a b tm Ha Hb).
    destruct (api a b) as [e|body] eqn:E.
    + simpl. apply IH. intros a' b' Hin. apply Hp.
      apply list_elem_of_further. exact Hin.
    + rewrite filter_pair_well_formed by (eapply Hwf; exact E).
      simpl. apply IH. intros a' b' Hin. apply Hp.
      apply list_elem_of_further. exact Hin.
Qed.

Lemma fetch_listed_pairs_runs api items :
  (forall a b body, api a b = Reply body -> Forall well_formed body) ->
  exists all,
    fetch_pairs api (id_name_map items)
      (combinations2 (map (fun item => entity_id (snd item)) items)) [] = inr all.
Proof.
  intros Hwf. apply fetch_pairs_runs; [|exact Hwf].
  intros a b Hin. destruct (listed_pair_tracked items a b Hin) as (Ha & Hb & _).
  split; assumption.
Qed.

(** X11.  On a dict of teams the function never fails on a name: it
    completes whenever the opponent entries of the replies carry their
    ids, whichever requests fail. *)
Theorem get_all_matches_runs api items :
  (forall a b body, api a b = Reply body -> Forall well_formed body) ->
  exists ms,
    get_all_head_to_head_matches api (TeamsDict items) = inr (ms, id_name_map items).
Proof.
  intros Hwf. unfold get_all_head_to_head_matches.
  destruct (fetch_listed_pairs_runs api items Hwf) as [all ->].
  simpl. exists all. reflexivity.
Qed.

Lemma get_all_matches_runs_witness :
  exists ms,
    get_all_head_to_head_matches provider_1_2 (TeamsDict file_A_B)
    = inr (ms, id_name_map file_A_B).
Proof.
  apply (get_all_matches_runs provider_1_2 file_A_B).
  intros a b body. unfold provider_1_2.
  destruct ((a =? 1) && (b =? 2)); [|discriminate].
  intros [= <-]. repeat constructor; eexists; reflexivity.
Defined.

(** * The fetcher and the engine together, as [main] chains them *)

Lemma id_name_map_distinct_acc items (d : name_map) :
  NoDup (map fst d ++ map (fun item => entity_id (snd item)) items) ->
  fold_left (fun d item => setitem (entity_id (snd item)) (fst item) d) items d
  = d ++ map (fun item => (entity_id (snd item), fst item)) items.
Proof.
  revert d. induction items as [|[n t] items IH]; intros d Hnd; simpl.
  - rewrite app_nil_r. reflexivity.
  - assert (Hout : entity_id t ∉ map fst d).
    { intros Hin. apply NoDup_app in Hnd as (_ & Hdisj & _).
      apply (Hdisj _ Hin). simpl. apply list_elem_of_here. }
    rewrite (setitem_fresh _ _ _ Hout), IH.
    + rewrite <- app_assoc. reflexivity.
    + rewrite map_app. simpl. rewrite <- app_assoc. exact Hnd.
Qed.

Lemma id_name_map_distinct items :
  NoDup (map (fun item => entity_id (snd item)) items) ->
  id_name_map items = map (fun item => (entity_id (snd item), fst item)) items.
Proof. intros H. unfold id_name_map. rewrite id_name_map_distinct_acc; [reflexivity | exact H]. Qed.

Lemma both_tracked tm m a b x y :
  a ∈ universe tm -> b ∈ universe tm -> a <> b ->
  a ∈ opponent_ids m -> b ∈ opponent_ids m -> opponent_ids m = [x; y] ->
  x ∈ universe tm /\ y ∈ universe tm.
Proof.
  intros Ha Hb Hne Hao Hbo E. rewrite E in Hao, Hbo.
  apply elem_of_cons in Hao as [->|Hao]; apply elem_of_cons in Hbo as [->|Hbo];
    try apply list_elem_of_singleton in Hao; try apply list_elem_of_singleton in Hbo;
    subst; try contradiction; split; assumption.
Qed.

Lemma sum_games_init tm : sum_games (init_ranking tm) = 0%nat.
Proof.
  unfold init_ranking.
  assert (H : forall acc, sum_games acc = 0%nat ->
    sum_games (fold_left (fun rd '(i, n) => modify i (set_name n) rd) tm acc) = 0%nat).
  { induction tm as [|[i n] tm' IH]; simpl; intros acc Hacc; [exact Hacc|].
    apply IH. rewrite sum_games_modify_same; [exact Hacc | reflexivity]. }
  apply H. reflexivity.
Qed.

Lemma next_other_elem w ids l : next_other w ids = Some l -> l ∈ ids.
Proof.
  induction ids as [|i ids IH]; simpl; [discriminate|].
  destruct (negb (i =? w)).
  - intros [= ->]. apply list_elem_of_here.
  - intros H. apply list_elem_of_further, IH, H.
Qed.

Lemma id_name_map_entry items k n :
  NoDup (map (fun item => entity_id (snd item)) items) ->
  getitem k (id_name_map items) = inr n ->
  exists team, (n, team) ∈ items /\ entity_id team = k.
Proof.
  intros Hnd Hget. apply getitem_In in Hget.
  rewrite id_name_map_distinct in Hget by exact Hnd.
  apply list_elem_of_fmap in Hget as ([n' team] & [= -> ->] & Hin).
  exists team. split; [exact Hin | reflexivity].
Qed.

Section Pipeline.

Variable api : team_id -> team_id -> response (list match_record).
Variables (items : list (string * entity)) (ms : list match_record) (tm : name_map).

Hypothesis fetched : get_all_head_to_head_matches api (TeamsDict items) = inr (ms, tm).
Hypothesis distinct_ids : NoDup (map (fun item => entity_id (snd item)) items).
Hypothesis two_sided_matches : Forall two_sided ms.

Lemma pipeline_opponents_tracked m x y :
  m ∈ ms -> opponent_ids m = [x; y] -> x ∈ universe tm /\ y ∈ universe tm.
Proof.
  intros Hm E.
  destruct (get_all_head_to_head_matches_inv _ _ _ _ fetched) as (Htm & Hall).
  rewrite Forall_forall in Hall. destruct (Hall m Hm) as (a & b & Hin & Hao & Hbo).
  destruct (listed_pair_tracked items a b Hin) as (Ha & Hb & Hne).
  rewrite <- Htm in Ha, Hb.
  apply (both_tracked tm m a b x y Ha Hb (Hne distinct_ids) Hao Hbo E).
Qed.

Lemma pipeline_map : tm = id_name_map items.
Proof. apply (get_all_head_to_head_matches_inv _ _ _ _ fetched). Qed.

Lemma pipeline_names : map snd tm = map fst items.
Proof.
  rewrite pipeline_map, id_name_map_distinct by exact distinct_ids.
  rewrite map_map. reflexivity.
Qed.

Lemma pipeline_winners_tracked m k :
  m ∈ ms -> scored_win k m = true -> k ∈ universe tm.
Proof.
  intros Hm Hs. apply scored_win_iff in Hs as (lo & Hres & _).
  apply resolve_inv in Hres as [Hw _].
  rewrite Forall_forall in two_sided_matches.
  destruct (two_sided_matches m Hm) as (x & y & E & Hwin).
  destruct (pipeline_opponents_tracked m x y Hm E) as [Hx Hy].
  destruct Hwin as [H|[H|H]]; rewrite Hw in H; [discriminate| |];
    injection H as ->; assumption.
Qed.

(** X12.  On what the fetcher returns for a file of teams with different ids,
    when its matches are two-sided, the ranking has exactly one standing
    per team of the file, under the team's name in the file. *)
Theorem pipeline_one_standing_per_team l :
  calculate_weighted_rankings ms tm = inr l ->
  length l = length items /\ map name l ≡ₚ map fst items.
Proof.
  intros Hrun.
  assert (Hnd : NoDup (universe tm)).
  { rewrite pipeline_map. apply id_name_map_NoDup. }
  apply calculate_weighted_rankings_inv in Hrun as (t & Ht & ->).
  pose proof (names_of_tracked_winners ms tm t Hnd pipeline_winners_tracked Ht)
    as Hnames.
  rewrite pipeline_names in Hnames.
  rewrite sort_desc_perm. split; [|rewrite Hnames; reflexivity].
  rewrite <- (length_map name), Hnames. apply length_map.
Qed.

(** X13.  If moreover every match has a winner, the run completes and the
    games of all standings add up to twice the games of all matches. *)
Theorem pipeline_total_games :
  Forall (fun m => winner m <> None) ms ->
  exists l,
    calculate_weighted_rankings ms tm = inr l /\
    sum_list_with total_games l = (2 * sum_list_with (fun m => length (games m)) ms)%nat.
Proof.
  intros Hwin.
  destruct (first_pass_all_winners tm ms (init_ranking tm) None Hwin (contains_init tm))
    as (rd & o & Hrun & _ & Hsum).
  unfold calculate_weighted_rankings. rewrite ranking_table_eq, Hrun. simpl.
  eexists. split; [reflexivity|].
  rewrite sort_desc_perm, sum_games_final, sum_games_second_pass, Hsum.
  rewrite sum_games_init. simpl.
  assert (H : forall m, m ∈ ms -> games_credit tm m = (2 * length (games m))%nat).
  { intros m Hm. rewrite Forall_forall in two_sided_matches.
    destruct (two_sided_matches m Hm) as (x & y & E & _).
    destruct (pipeline_opponents_tracked m x y Hm E) as [Hx Hy].
    unfold games_credit, tracked. rewrite E.
    rewrite !bool_decide_eq_true_2 by assumption. simpl. lia. }
  clear -H. induction ms as [|m ms' IH]; simpl; [reflexivity|].
  rewrite H by apply list_elem_of_here.
  rewrite IH; [lia|]. intros m' Hm'. apply H. apply list_elem_of_further. exact Hm'.
Qed.

(** X14.  Every pair of the head-to-head records is a pair of teams of the
    file, so the breakdown never prints "Unknown" for want of a name:
    the name it prints for an id is the key of a team of the file with
    that id. *)
Theorem pipeline_h2h_names a b record :
  calculate_head_to_head_records ms !! (a, b) = Some record ->
  (exists team, (name_or_unknown tm a, team) ∈ items /\ entity_id team = a) /\
  (exists team, (name_or_unknown tm b, team) ∈ items /\ entity_id team = b).
Proof.
  intros Hkey. pose proof (h2h_invariant_holds ms a b) as Hinv.
  rewrite Hkey in Hinv. destruct Hinv as (_ & _ & _ & _ & _ & _ & Hpos).
  apply count_matches_pos in Hpos as (m & Hm & Hb).
  apply andb_true_iff in Hb as [Hb _]. unfold between in Hb.
  destruct (resolve m) as [[w lo]|] eqn:Hres; [|discriminate].
  apply bool_decide_eq_true_1 in Hb.
  apply resolve_inv in Hres as [Hw Hlo]. apply next_other_elem in Hlo.
  rewrite Forall_forall in two_sided_matches.
  destruct (two_sided_matches m Hm) as (x & y & E & Hwin).
  destruct (pipeline_opponents_tracked m x y Hm E) as [Hx Hy].
  assert (Hwt : w ∈ universe tm).
  { destruct Hwin as [H|[H|H]]; rewrite Hw in H; [discriminate| |];
      injection H as ->; assumption. }
  assert (Hlt : lo ∈ universe tm).
  { rewrite E in Hlo. apply elem_of_cons in Hlo as [->|Hlo]; [exact Hx|].
    apply list_elem_of_singleton in Hlo. subst. exact Hy. }
  assert (Hab : a ∈ universe tm /\ b ∈ universe tm).
  { apply sorted_pair_cases in Hb as [(-> & -> & _)|(-> & -> & _)]; tauto. }
  pose proof pipeline_map as Htm.
  assert (H : forall k, k ∈ universe tm ->
            exists team, (name_or_unknown tm k, team) ∈ items /\ entity_id team = k).
  { intros k Hk. unfold universe in Hk. apply getitem_elem in Hk as [n Hn].
    unfold name_or_unknown. rewrite Hn. rewrite Htm in Hn.
    apply (id_name_map_entry items k n distinct_ids Hn). }
  split; apply H; tauto.
Qed.

End Pipeline.

Lemma pipeline_one_standing_per_team_witness :
  exists l,
    calculate_weighted_rankings [bo3_1_beats_2; team_2_beats_1] teams_A_B = inr l /\
    length l = 2%nat /\ map name l ≡ₚ ["A"; "B"].
Proof.
  eexists. split; [vm_compute; reflexivity|].
  apply (pipeline_one_standing_per_team provider_1_2 file_A_B
           [bo3_1_beats_2; team_2_beats_1] teams_A_B).
  - vm_compute. reflexivity.
  - apply (bool_decide_unpack _). vm_compute. exact I.
  - constructor; [exists 1, 2; split; [reflexivity | right; left; reflexivity]|].
    constructor; [exists 1, 2; split; [reflexivity | right; right; reflexivity]|].
    constructor.
  - vm_compute. reflexivity.
Defined.

Lemma pipeline_total_games_witness :
  exists l,
    calculate_weighted_rankings [bo3_1_beats_2; team_2_beats_1] teams_A_B = inr l /\
    sum_list_with total_games l = 8%nat.
Proof.
  apply (pipeline_total_games provider_1_2 file_A_B
           [bo3_1_beats_2; team_2_beats_1] teams_A_B).
  - vm_compute. reflexivity.
  - apply (bool_decide_unpack _). vm_compute. exact I.
  - constructor; [exists 1, 2; split; [reflexivity | right; left; reflexivity]|].
    constructor; [exists 1, 2; split; [reflexivity | right; right; reflexivity]|].
    constructor.
  - repeat constructor; discriminate.
Defined.

Lemma pipeline_h2h_names_witness :
  exists record,
    calculate_head_to_head_records [bo3_1_beats_2; team_2_beats_1] !! (1, 2)
    = Some record /\
    (exists team, ("A", team) ∈ file_A_B /\ entity_id team = 1) /\
    (exists team, ("B", team) ∈ file_A_B /\ entity_id team = 2).
Proof.
  destruct (calculate_head_to_head_records [bo3_1_beats_2; team_2_beats_1] !! (1, 2))
    as [record|] eqn:Hkey; [|vm_compute in Hkey; discriminate].
  exists record. split; [reflexivity|].
  refine (pipeline_h2h_names provider_1_2 file_A_B
            [bo3_1_beats_2; team_2_beats_1] teams_A_B _ _ _ 1 2 record Hkey).
  - vm_compute. reflexivity.
  - apply (bool_decide_unpack _). vm_compute. exact I.
  - constructor; [exists 1, 2; split; [reflexivity | right; left; reflexivity]|].
    constructor; [exists 1, 2; split; [reflexivity | right; right; reflexivity]|].
    constructor.
Defined.

(** * The interactive functions *)

Lemma list_getitem_in_range {A} (l : list A) (i : Z) :
  0 <= i < Z.of_nat (length l) ->
  exists x, list_getitem l i = inr x /\ l !! Z.to_nat i = Some x.
Proof.
  intros Hi. unfold list_getitem.
  destruct (Z.ltb_spec i 0); [lia|]. cbv zeta.
  destruct (Z.ltb_spec i 0); [lia|].
  destruct (l !! Z.to_nat i) as [x|] eqn:E; [eauto|].
  apply lookup_ge_None in E. lia.
Qed.

Section Choosing.

Variable int : string -> option Z.

(** ** [choose_json_file] *)

Lemma choose_loop_safe files inputs :
  match choose_loop int files inputs with
  | inr (Some file, rest) => file ∈ files /\ rest `suffix_of` inputs
  | inr (None, rest) => rest `suffix_of` inputs
  | inl e => e = EOFError
  end.
Proof.
  induction inputs as [|choice rest IH]; simpl; [reflexivity|].
  destruct (decide (choice = EmptyString)) as [_|_]; [apply suffix_cons_r; reflexivity|].
  assert (Hrec : match choose_loop int files rest with
                 | inr (Some file, rest') => file ∈ files /\ rest' `suffix_of` choice :: rest
                 | inr (None, rest') => rest' `suffix_of` choice :: rest
                 | inl e => e = EOFError
                 end).
  { destruct (choose_loop int files rest) as [e|[[file|] rest']]; [exact IH| |].
    - split; [apply IH | apply suffix_cons_r, IH].
    - apply suffix_cons_r, IH. }
  destruct (int choice) as [n|]; [|exact Hrec].
  destruct ((0 <=? n - 1) && (n - 1 <? Z.of_nat (length files))) eqn:Hrange; [|exact Hrec].
  apply andb_true_iff in Hrange as [H0 H1].
  apply Z.leb_le in H0. apply Z.ltb_lt in H1.
  destruct (list_getitem_in_range files (n - 1)) as (file & -> & Hfile); [lia|].
  simpl. split; [|apply suffix_cons_r; reflexivity].
  eapply list_elem_of_lookup_2. exact Hfile.
Qed.

(** X15.  [choose_json_file] returns one of the files it was given or [None],
    having read a prefix of the lines; it never indexes the list out of
    range, and the only way it can fail is the end of the input. *)
Theorem choose_json_file_safe files inputs :
  match choose_json_file int files inputs with
  | inr (Some file, rest) => file ∈ files /\ rest `suffix_of` inputs
  | inr (None, rest) => rest `suffix_of` inputs
  | inl e => e = EOFError /\ files <> []
  end.
Proof.
  unfold choose_json_file. destruct files as [|f files]; [reflexivity|].
  pose proof (choose_loop_safe (f :: files) inputs) as H.
  destruct (choose_loop int (f :: files) inputs) as [e|[[file|] rest]]; [|exact H|exact H].
  split; [exact H | discriminate].
Qed.

(** X16.  Lines that are neither empty nor a number from 1 to the number of
    files are passed over, whatever they are; the first other line
    decides: an empty line cancels, the number [n] picks the [n]-th
    file. *)
Theorem choose_json_file_first_answer files bad line rest :
  files <> [] ->
  Forall (rejected_choice int files) bad ->
  (line = EmptyString ->
   choose_json_file int files (bad ++ line :: rest) = inr (None, rest)) /\
  (forall n file,
     line <> EmptyString -> int line = Some n ->
     files !! Z.to_nat (n - 1) = Some file -> 1 <= n ->
     choose_json_file int files (bad ++ line :: rest) = inr (Some file, rest)).
Proof.
  intros Hfiles Hbad. unfold choose_json_file.
  destruct files as [|f0 files0] eqn:Ef; [contradiction|]. rewrite <- Ef in *. clear Hfiles.
  induction Hbad as [|b bad [Hb Hrej] Hbad IH]; simpl.
  - split.
    + intros ->. rewrite decide_True by reflexivity. reflexivity.
    + intros n file Hline Hint Hfile Hn. rewrite decide_False by exact Hline.
      rewrite Hint. pose proof (lookup_lt_Some _ _ _ Hfile) as Hlt.
      destruct (Z.leb_spec 0 (n - 1)); [|lia].
      destruct (Z.ltb_spec (n - 1) (Z.of_nat (length files))); [|lia]. simpl.
      destruct (list_getitem_in_range files (n - 1)) as (file' & -> & Hfile'); [lia|].
      simpl. congruence.
  - rewrite decide_False by exact Hb. destruct (int b) as [n|]; [|exact IH].
    destruct (Z.leb_spec 0 (n - 1)); simpl; [|exact IH].
    destruct (Z.ltb_spec (n - 1) (Z.of_nat (length files))); [lia | exact IH].
Qed.

(** ** [select_entity] *)

Lemma select_loop_safe options inputs :
  match select_loop int options inputs with
  | inr (Some (i, n), rest) =>
      {| entity_id := i; entity_name := n |} ∈ options /\ rest `suffix_of` inputs /\
      (length rest < length inputs)%nat
  | inr (None, rest) => False
  | inl e => e = EOFError
  end.
Proof.
  induction inputs as [|line rest IH]; simpl; [reflexivity|].
  assert (Hrec : match select_loop int options rest with
                 | inr (Some (i, n), rest') =>
                     {| entity_id := i; entity_name := n |} ∈ options /\
                     rest' `suffix_of` line :: rest /\
                     (length rest' < S (length rest))%nat
                 | inr (None, rest') => False
                 | inl e => e = EOFError
                 end).
  { destruct (select_loop int options rest) as [e|[[[i n]|] rest']]; [exact IH| |exact IH].
    destruct IH as (H1 & H2 & H3). split; [exact H1|].
    split; [apply suffix_cons_r; exact H2 | lia]. }
  destruct (int line) as [choice|]; [|exact Hrec].
  destruct ((1 <=? choice) && (choice <=? Z.of_nat (length options))) eqn:Hrange;
    [|exact Hrec].
  apply andb_true_iff in Hrange as [H0 H1].
  apply Z.leb_le in H0. apply Z.leb_le in H1.
  destruct (list_getitem_in_range options (choice - 1)) as (e & -> & He); [lia|].
  simpl. split; [|split; [apply suffix_cons_r; reflexivity | lia]].
  destruct e as [i n]. simpl. eapply list_elem_of_lookup_2. exact He.
Qed.

Lemma select_entity_cons entity_type name_input option1 more inputs :
  match select_entity int entity_type name_input (option1 :: more) inputs with
  | inr (Some (i, n), rest) =>
      {| entity_id := i; entity_name := n |} ∈ option1 :: more /\
      (length rest < length inputs)%nat /\ rest `suffix_of` inputs
  | inr (None, rest) => False
  | inl e => e = EOFError
  end.
Proof.
  pose proof (select_loop_safe (option1 :: more) inputs) as H.
  change (select_entity int entity_type name_input (option1 :: more) inputs)
    with (select_loop int (option1 :: more) inputs).
  destruct (select_loop int (option1 :: more) inputs) as [e|[[[i n]|] rest]];
    [exact H | tauto | exact H].
Qed.

(** X17.  [select_entity] returns the id and the name of one and the same
    option, or nothing when there is no option; it never indexes the
    options out of range, and the only way it can fail is the end of
    the input. *)
Theorem select_entity_safe entity_type name_input options inputs :
  match select_entity int entity_type name_input options inputs with
  | inr (Some (i, n), rest) =>
      {| entity_id := i; entity_name := n |} ∈ options /\ rest `suffix_of` inputs
  | inr (None, rest) => options = [] /\ rest = inputs
  | inl e => e = EOFError /\ options <> []
  end.
Proof.
  unfold select_entity. destruct options as [|e0 options]; [split; reflexivity|].
  pose proof (select_loop_safe (e0 :: options) inputs) as H.
  destruct (select_loop int (e0 :: options) inputs) as [e|[[[i n]|] rest]].
  - split; [exact H | discriminate].
  - tauto.
  - contradiction.
Qed.

End Choosing.

Lemma choose_json_file_first_answer_witness :
  choose_json_file int_of_digits ["a.json"; "b.json"] (["x"; "7"] ++ "2" :: ["y"])
  = inr (Some "b.json", ["y"]).
Proof.
  refine (proj2 (choose_json_file_first_answer int_of_digits ["a.json"; "b.json"]
                   ["x"; "7"] "2" ["y"] _ _) 2 "b.json" _ _ _ _).
  - discriminate.
  - constructor; [split; [discriminate | exact I]|].
    constructor; [split; [discriminate | vm_compute; intros [_ H]; apply H; reflexivity]|].
    constructor.
  - discriminate.
  - reflexivity.
  - reflexivity.
  - lia.
Defined.

(** * [add_teams_to_json] *)

Lemma setitem_elem {K V} `{EqDecision K} (k k' : K) (v v' : V) d :
  (k', v') ∈ setitem k v d -> (k', v') ∈ d \/ (k', v') = (k, v).
Proof.
  induction d as [|[k0 v0] d IH]; simpl.
  - intros Hin. apply list_elem_of_singleton in Hin. auto.
  - destruct (decide (k = k0)) as [->|Hne]; rewrite !elem_of_cons.
    + intros [Hin|Hin]; [right; exact Hin | left; right; exact Hin].
    + intros [Hin|Hin]; [left; left; exact Hin|]. destruct (IH Hin); auto.
Qed.

Lemma keys_setitem_incl {K V} `{EqDecision K} (k k' : K) (v : V) d :
  k' ∈ map fst d -> k' ∈ map fst (setitem k v d).
Proof.
  rewrite keys_setitem. case_bool_decide; [auto|]. intros Hin.
  apply elem_of_app. left. exact Hin.
Qed.

Lemma suffix_Forall {A} (P : A -> Prop) (l1 l2 : list A) :
  l1 `suffix_of` l2 -> Forall P l2 -> Forall P l1.
Proof. intros [k ->] H. apply Forall_app in H. tauto. Qed.

Section Adding.

Variable int : string -> option Z.
Variable lower : string -> string.
Variable api : string -> string -> response (list entity).

Lemma grown_from_refl items : grown_from api items items.
Proof. repeat split; auto. Qed.

Lemma grown_from_step items0 items query body team :
  grown_from api items0 items ->
  api "teams" query = Reply body -> team ∈ body -> entity_id team <> 0 ->
  grown_from api items0 (setitem (entity_name team) team items).
Proof.
  intros (Hk & Hp & Hn) Hq Hin Hid. split; [|split].
  - intros key Hkey. apply keys_setitem_incl, Hk, Hkey.
  - intros key t Ht. apply setitem_elem in Ht as [Ht|[= -> ->]]; [apply Hp, Ht|].
    right. split; [reflexivity|]. split; [exact Hid|]. eauto.
  - intros H. apply NoDup_keys_setitem, Hn, H.
Qed.

Lemma add_teams_loop_entries rounds items0 items inputs :
  (length inputs < rounds)%nat ->
  grown_from api items0 items ->
  exists r,
    add_teams_loop int lower api rounds (TeamsDict items) inputs = Some r /\
    match r with
    | inr (TeamsDict final) => grown_from api items0 final
    | inr (TeamsList _) => False
    | inl e => e = EOFError
    end.
Proof.
  revert items inputs. induction rounds as [|rounds IH]; intros items inputs Hlen Hg; [lia|].
  destruct inputs as [|line rest]; cbn [add_teams_loop];
    [exists (inl EOFError); split; reflexivity|]. simpl in Hlen.
  destruct (decide (lower line = "done")) as [_|_];
    [exists (inr (TeamsDict items)); split; [reflexivity | exact Hg]|].
  destruct (existsb _ items); [apply IH; [lia | exact Hg]|].
  unfold search_entity. destruct (api "teams" line) as [e|body] eqn:Hq;
    [apply IH; [lia | exact Hg]|].
  destruct body as [|option1 more]; [apply IH; [lia | exact Hg]|].
  pose proof (select_entity_cons int "team" line option1 more rest) as Hsel.
  destruct (select_entity int "team" line (option1 :: more) rest)
    as [e|[[[team_id team_name]|] rest']].
  - subst e. exists (inl EOFError). split; reflexivity.
  - destruct Hsel as (Hin & Hshorter & _).
    unfold truthy. destruct (Z.eqb_spec team_id 0) as [->|Hid]; simpl.
    + apply IH; [lia | exact Hg].
    + apply IH; [lia|].
      apply (grown_from_step items0 items line (option1 :: more)
               {| entity_id := team_id; entity_name := team_name |} Hg Hq Hin Hid).
  - contradiction.
Qed.

(** X18.  Starting from no file, an unreadable file or a dict of teams,
    [add_teams_to_json] stops after finitely many rounds, and what it
    writes keeps every key it started with; each entry is one it
    started with or a team of a reply to a search, stored under the
    team's own name, with an id other than 0; and keys stay unique.
    The only exception it can stop on is the end of the input. *)
Theorem add_teams_to_json_entries existing inputs :
  (forall l, existing <> Some (Some (TeamsList l))) ->
  exists r,
    add_teams_to_json int lower api existing inputs = Some r /\
    match r with
    | inr (TeamsDict final) => grown_from api (initial_items existing) final
    | inr (TeamsList _) => False
    | inl e => e = EOFError
    end.
Proof.
  intros Hdict. unfold add_teams_to_json.
  assert (E : match existing with Some (Some loaded) => loaded | _ => TeamsDict [] end
              = TeamsDict (initial_items existing)).
  { destruct existing as [[[items|l]|]|]; try reflexivity. destruct (Hdict l eq_refl). }
  rewrite E. apply add_teams_loop_entries; [lia | apply grown_from_refl].
Qed.

Lemma add_teams_loop_eof rounds items inputs :
  (length inputs < rounds)%nat ->
  Forall (fun line => lower line <> "done") inputs ->
  add_teams_loop int lower api rounds (TeamsDict items) inputs = Some (inl EOFError).
Proof.
  revert items inputs. induction rounds as [|rounds IH]; intros items inputs Hlen Hall; [lia|].
  destruct inputs as [|line rest]; cbn [add_teams_loop]; [reflexivity|]. simpl in Hlen.
  inversion Hall as [|? ? Hline Hrest]; subst.
  rewrite decide_False by exact Hline.
  destruct (existsb _ items); [apply IH; [lia | exact Hrest]|].
  destruct (search_entity api "teams" line) as [[|option1 more]|];
    try (apply IH; [lia | exact Hrest]).
  pose proof (select_entity_cons int "team" line option1 more rest) as Hsel.
  destruct (select_entity int "team" line (option1 :: more) rest)
    as [e|[[[team_id team_name]|] rest']].
  - subst e. reflexivity.
  - destruct Hsel as (_ & Hshorter & Hsuf).
    pose proof (suffix_Forall _ _ _ Hsuf Hrest).
    destruct (truthy team_id); apply IH; solve [lia | assumption].
  - contradiction.
Qed.

(** X19.  When the input ends without a line that reads "done", the function
    stops on [EOFError] and writes nothing, whatever was found before. *)
Theorem add_teams_to_json_needs_done existing inputs :
  (forall l, existing <> Some (Some (TeamsList l))) ->
  Forall (fun line => lower line <> "done") inputs ->
  add_teams_to_json int lower api existing inputs = Some (inl EOFError).
Proof.
  intros Hdict Hall. unfold add_teams_to_json.
  assert (E : match existing with Some (Some loaded) => loaded | _ => TeamsDict [] end
              = TeamsDict (initial_items existing)).
  { destruct existing as [[[items|l]|]|]; try reflexivity. destruct (Hdict l eq_refl). }
  rewrite E. apply add_teams_loop_eof; [lia | exact Hall].
Qed.

End Adding.

Lemma add_teams_to_json_entries_witness :
  exists r,
    add_teams_to_json int_of_digits ascii_lower search_T1 None
      ["t1"; "T1"; "x"; "2"; "done"] = Some r /\
    match r with
    | inr (TeamsDict final) => grown_from search_T1 [] final
    | inr (TeamsList _) => False
    | inl e => e = EOFError
    end.
Proof.
  apply (add_teams_to_json_entries int_of_digits ascii_lower search_T1 None
           ["t1"; "T1"; "x"; "2"; "done"]).
  intros l. discriminate.
Defined.

Lemma add_teams_to_json_needs_done_witness :
  add_teams_to_json int_of_digits ascii_lower search_T1 None ["T1"; "1"; "Done."]
  = Some (inl EOFError).
Proof.
  apply (add_teams_to_json_needs_done int_of_digits ascii_lower search_T1 None
           ["T1"; "1"; "Done."]).
  - intros l. discriminate.
  - repeat constructor; vm_compute; discriminate.
Defined.

(** * [get_teams_from_region] *)

Section Region.

Variable api : region_api.

Lemma collect_inner tournament seen body teams1 teams2 all_teams :
  get_teams api (entity_id tournament) = Reply body ->
  body = teams1 ++ teams2 ->
  NoDup (map fst all_teams) ->
  (forall k team, (k, team) ∈ all_teams ->
     k = entity_id team /\
     exists tr b, tr ∈ tournament :: seen /\
                  get_teams api (entity_id tr) = Reply b /\ team ∈ b) ->
  let all_teams' :=
    fold_left (fun all_teams team => setitem (entity_id team) team all_teams)
      teams2 all_teams in
  NoDup (map fst all_teams') /\
  (forall k team, (k, team) ∈ all_teams' ->
     k = entity_id team /\
     exists tr b, tr ∈ tournament :: seen /\
                  get_teams api (entity_id tr) = Reply b /\ team ∈ b) /\
  (forall k, k ∈ map fst all_teams -> k ∈ map fst all_teams') /\
  (forall team, team ∈ teams2 -> entity_id team ∈ map fst all_teams').
Proof.
  intros Hreply. revert teams1 all_teams.
  induction teams2 as [|team teams2 IH]; intros teams1 all_teams Hbody Hnd Hprov; simpl.
  - split; [exact Hnd|]. split; [exact Hprov|]. split; [auto|].
    intros team Hin. inversion Hin.
  - destruct (IH (teams1 ++ [team]) (setitem (entity_id team) team all_teams))
      as (H1 & H2 & H3 & H4).
    + rewrite <- app_assoc. exact Hbody.
    + apply NoDup_keys_setitem. exact Hnd.
    + intros k t Ht. apply setitem_elem in Ht as [Ht|[= -> ->]]; [apply Hprov, Ht|].
      split; [reflexivity|]. exists tournament, body.
      split; [apply list_elem_of_here|]. split; [exact Hreply|].
      rewrite Hbody. apply elem_of_app. right. apply list_elem_of_here.
    + split; [exact H1|]. split; [exact H2|]. split.
      * intros k Hk. apply H3, keys_setitem_incl, Hk.
      * intros t Ht. apply elem_of_cons in Ht as [->|Ht]; [|apply H4, Ht].
        apply H3. rewrite keys_setitem. case_bool_decide as Hin; [exact Hin|].
        apply elem_of_app. right. apply list_elem_of_here.
Qed.

Lemma collect_teams_collected seen tournament all_teams :
  collected api seen all_teams ->
  collected api (seen ++ [tournament]) (collect_teams api all_teams tournament).
Proof.
  intros (Hnd & Hprov & Hcomp). unfold collect_teams.
  destruct (get_teams api (entity_id tournament)) as [e|body] eqn:Hreply.
  - split; [exact Hnd|]. split.
    + intros k team Hin. destruct (Hprov k team Hin) as (Hk & tr & b & Htr & Hb & Ht).
      split; [exact Hk|]. exists tr, b. split; [|tauto].
      apply elem_of_app. left. exact Htr.
    + intros tr b team Htr Hb Ht. apply elem_of_app in Htr as [Htr|Htr].
      * eapply Hcomp; eassumption.
      * apply list_elem_of_singleton in Htr. subst. congruence.
  - destruct (collect_inner tournament seen body [] body all_teams Hreply eq_refl Hnd)
      as (H1 & H2 & H3 & H4).
    { intros k team Hin. destruct (Hprov k team Hin) as (Hk & tr & b & Htr & Hb & Ht).
      split; [exact Hk|]. exists tr, b. split; [|tauto].
      apply list_elem_of_further. exact Htr. }
    split; [exact H1|]. split.
    + intros k team Hin. destruct (H2 k team Hin) as (Hk & tr & b & Htr & Hb & Ht).
      split; [exact Hk|]. exists tr, b. split; [|tauto].
      apply elem_of_app. apply elem_of_cons in Htr as [->|Htr];
        [right; apply list_elem_of_here | left; exact Htr].
    + intros tr b team Htr Hb Ht. apply elem_of_app in Htr as [Htr|Htr].
      * apply H3. eapply Hcomp; eassumption.
      * apply list_elem_of_singleton in Htr. subst.
        rewrite Hreply in Hb. injection Hb as <-. apply H4, Ht.
Qed.

Lemma fold_collected seen tournaments all_teams :
  collected api seen all_teams ->
  collected api (seen ++ tournaments) (fold_left (collect_teams api) tournaments all_teams).
Proof.
  revert seen all_teams. induction tournaments as [|tr trs IH]; intros seen all_teams H; simpl.
  - rewrite app_nil_r. exact H.
  - replace (seen ++ tr :: trs) with ((seen ++ [tr]) ++ trs)
      by (rewrite <- app_assoc; reflexivity).
    apply IH, collect_teams_collected, H.
Qed.

Lemma get_teams_from_region_inv api_key game_slug region_name filename teams :
  get_teams_from_region api api_key game_slug region_name = Some (filename, teams) ->
  exists league others tournaments item all_teams,
    get_leagues api game_slug region_name = Reply (league :: others) /\
    get_tournaments api game_slug (entity_id league) = Reply tournaments /\
    fold_left (collect_teams api) tournaments [] = item :: all_teams /\
    teams = map snd (item :: all_teams) /\
    filename = region_name +:+ "_" +:+ game_slug +:+ "_teams.json".
Proof.
  unfold get_teams_from_region.
  destruct api_key as [[|c key]|]; try discriminate.
  destruct (get_leagues api game_slug region_name) as [e|[|league others]] eqn:Hl;
    try discriminate.
  destruct (get_tournaments api game_slug (entity_id league)) as [e|tournaments] eqn:Ht;
    try discriminate.
  destruct tournaments as [|tr trs]; [discriminate|].
  destruct (fold_left (collect_teams api) (tr :: trs) []) as [|item all_teams] eqn:Hall;
    [discriminate|].
  intros [= <- <-]. exists league, others, (tr :: trs), item, all_teams.
  repeat split; assumption.
Qed.

(** X20.  When [get_teams_from_region] writes a file, the file is named after
    the region and the game and holds at least one team; the teams come
    from the tournaments of the first league of the reply, each from a
    reply that listed it; every team of such a reply is there under its
    id, and no id is there twice. *)
Theorem region_file_teams api_key game_slug region_name filename teams :
  get_teams_from_region api api_key game_slug region_name = Some (filename, teams) ->
  filename = region_name +:+ "_" +:+ game_slug +:+ "_teams.json" /\
  teams <> [] /\
  NoDup (map entity_id teams) /\
  exists league others tournaments,
    get_leagues api game_slug region_name = Reply (league :: others) /\
    get_tournaments api game_slug (entity_id league) = Reply tournaments /\
    (forall team, team ∈ teams ->
       exists tournament body,
         tournament ∈ tournaments /\
         get_teams api (entity_id tournament) = Reply body /\ team ∈ body) /\
    (forall tournament body team,
       tournament ∈ tournaments ->
       get_teams api (entity_id tournament) = Reply body -> team ∈ body ->
       entity_id team ∈ map entity_id teams).
Proof.
  intros Hrun. apply get_teams_from_region_inv in Hrun
    as (league & others & tournaments & item & all_teams & Hl & Ht & Hall & -> & ->).
  destruct (fold_collected [] tournaments []) as (Hnd & Hprov & Hcomp).
  { split; [constructor|]. split; [intros k team H; inversion H|].
    intros t b team H. inversion H. }
  simpl app in *. rewrite Hall in *.
  assert (Hids : map entity_id (map snd (item :: all_teams)) = map fst (item :: all_teams)).
  { rewrite map_map. apply map_ext_in. intros [k team] Hin. simpl.
    symmetry. apply (Hprov k team). apply list_elem_of_In. exact Hin. }
  split; [reflexivity|]. split; [discriminate|]. split; [rewrite Hids; exact Hnd|].
  exists league, others, tournaments. split; [exact Hl|]. split; [exact Ht|]. split.
  - intros team Hin. apply list_elem_of_fmap in Hin as ([k team'] & -> & Hin).
    apply (Hprov k team' Hin).
  - intros tournament body team Htr Hb Hin. rewrite Hids. eapply Hcomp; eassumption.
Qed.

End Region.

Lemma region_file_teams_witness :
  exists teams,
    get_teams_from_region region_lck (Some "key") "lol" "lck"
    = Some ("lck_lol_teams.json", teams) /\
    map entity_id teams = [1; 2; 3].
Proof.
  destruct (get_teams_from_region region_lck (Some "key") "lol" "lck")
    as [[filename teams]|] eqn:Hrun; [|vm_compute in Hrun; discriminate].
  destruct (region_file_teams region_lck (Some "key") "lol" "lck" filename teams Hrun)
    as (-> & _).
  exists teams. split; [reflexivity|].
  vm_compute in Hrun. injection Hrun as <-. reflexivity.
Defined.

(** * A file of one script read by another *)

(** X21.  The file [get_teams_from_region] writes is a list of teams.
    [load_teams_from_json] turns it down only when it holds a single
    team; otherwise it accepts it, and [get_all_head_to_head_matches]
    then stops on the [values] that a list does not have, whatever the
    match provider answers. *)
Theorem region_file_not_for_compare_teams api api_key game_slug region_name
    filename teams match_api :
  get_teams_from_region api api_key game_slug region_name = Some (filename, teams) ->
  match load_teams_from_json (Loaded (TeamsList teams)) with
  | None => length teams = 1%nat
  | Some loaded =>
      loaded = TeamsList teams /\
      get_all_head_to_head_matches match_api loaded = inl (AttributeError "values")
  end.
Proof.
  intros Hrun. apply get_teams_from_region_inv in Hrun
    as (_ & _ & _ & item & all_teams & _ & _ & _ & -> & _).
  unfold load_teams_from_json. simpl.
  destruct all_teams as [|item2 all_teams]; [reflexivity|].
  simpl. split; reflexivity.
Qed.

Lemma region_file_not_for_compare_teams_witness :
  exists teams,
    get_teams_from_region region_lck (Some "key") "lol" "lck"
    = Some ("lck_lol_teams.json", teams) /\
    load_teams_from_json (Loaded (TeamsList teams)) = Some (TeamsList teams) /\
    get_all_head_to_head_matches provider_1_2 (TeamsList teams)
    = inl (AttributeError "values").
Proof.
  destruct (get_teams_from_region region_lck (Some "key") "lol" "lck")
    as [[filename teams]|] eqn:Hrun; [|vm_compute in Hrun; discriminate].
  pose proof (region_file_not_for_compare_teams region_lck (Some "key") "lol" "lck"
                filename teams provider_1_2 Hrun) as H.
  vm_compute in Hrun. injection Hrun as <- <-.
  eexists. split; [reflexivity|]. split; [reflexivity|]. apply H.
Defined.

(** * [format_head_to_head_records] *)

Lemma filter_all {A} (f : A -> bool) (l : list A) :
  Forall (fun x => f x = true) l -> List.filter f l = l.
Proof.
  induction 1 as [|x l Hx Hl IH]; simpl; [reflexivity|]. rewrite Hx, IH. reflexivity.
Qed.

(** X22.  On the pairs of the mapping that [calculate_head_to_head_records]
    builds, in whatever order they come, the test on the sum of the two
    counts passes every time: the text has the title and one line for
    each pair. *)
Theorem format_head_to_head_keeps_every_pair ms h2h_items tm :
  Forall (fun item => calculate_head_to_head_records ms !! fst item = Some (snd item))
    h2h_items ->
  format_head_to_head_records h2h_items tm =
  String.concat newline
    ((newline +:+ "--- Head-to-Head Breakdown ---") :: map (h2h_line tm) h2h_items).
Proof.
  intros Hall. unfold format_head_to_head_records. rewrite filter_all; [reflexivity|].
  eapply Forall_impl; [exact Hall|]. intros [[a b] record] Hitem. simpl in *.
  pose proof (h2h_invariant_holds ms a b) as Hinv. rewrite Hitem in Hinv.
  destruct Hinv as (_ & _ & _ & _ & _ & Hsum & Hpos).
  apply Nat.ltb_lt. lia.
Qed.

Lemma format_head_to_head_keeps_every_pair_witness :
  format_head_to_head_records
    (map_to_list (calculate_head_to_head_records [bo3_1_beats_2; team_2_beats_1]))
    teams_A_B
  = String.concat newline
      [newline +:+ "--- Head-to-Head Breakdown ---"; newline +:+ "A vs. B: 1-1"].
Proof.
  rewrite (format_head_to_head_keeps_every_pair [bo3_1_beats_2; team_2_beats_1]).
  - vm_compute. reflexivity.
  - apply Forall_forall. intros [pair record] Hin.
    apply elem_of_map_to_list in Hin. exact Hin.
Defined.

(** X23.  What [add_teams_to_json] writes, starting from no file, an
    unreadable file or a dict of teams, is a dict of teams with unique
    names when it started with unique names: [load_teams_from_json]
    accepts it when it holds two teams or more, and
    [get_all_head_to_head_matches] runs on it whenever the opponent
    entries of the replies carry their ids. *)
Theorem teams_json_for_compare_teams int lower search existing inputs teams match_api :
  (forall l, existing <> Some (Some (TeamsList l))) ->
  add_teams_to_json int lower search existing inputs = Some (inr teams) ->
  (forall a b body, match_api a b = Reply body -> Forall well_formed body) ->
  exists items ms,
    teams = TeamsDict items /\
    (NoDup (map fst (initial_items existing)) -> NoDup (map fst items)) /\
    ((2 <= length items)%nat -> load_teams_from_json (Loaded teams) = Some teams) /\
    get_all_head_to_head_matches match_api teams = inr (ms, id_name_map items).
Proof.
  intros Hdict Hrun Hwf. unfold add_teams_to_json in Hrun.
  assert (E : match existing with Some (Some loaded) => loaded | _ => TeamsDict [] end
              = TeamsDict (initial_items existing)).
  { destruct existing as [[[items|l]|]|]; try reflexivity. destruct (Hdict l eq_refl). }
  rewrite E in Hrun.
  destruct (add_teams_loop_entries int lower search (S (length inputs))
              (initial_items existing) (initial_items existing) inputs)
    as (r & Hr & Hshape); [lia | apply grown_from_refl|].
  rewrite Hrun in Hr. injection Hr as <-.
  destruct teams as [items|l]; [|contradiction].
  destruct (fetch_listed_pairs_runs match_api items Hwf) as [ms Hms].
  exists items, ms. split; [reflexivity|]. split; [apply Hshape|].
  split; [|unfold get_all_head_to_head_matches; rewrite Hms; reflexivity].
  intros Hlen. unfold load_teams_from_json. simpl.
  destruct (Nat.eqb_spec (length items) 0); [lia|].
  destruct (Nat.ltb_spec (length items) 2); [lia|]. reflexivity.
Qed.

Lemma teams_json_for_compare_teams_witness :
  exists items ms,
    add_teams_to_json int_of_digits ascii_lower search_T1 None
      ["T1"; "2"; "T1"; "1"; "done"] = Some (inr (TeamsDict items)) /\
    length items = 2%nat /\
    NoDup (map fst items) /\
    load_teams_from_json (Loaded (TeamsDict items)) = Some (TeamsDict items) /\
    get_all_head_to_head_matches provider_1_2 (TeamsDict items)
    = inr (ms, id_name_map items).
Proof.
  destruct (add_teams_to_json int_of_digits ascii_lower search_T1 None
              ["T1"; "2"; "T1"; "1"; "done"]) as [[e|teams]|] eqn:Hrun;
    [vm_compute in Hrun; discriminate | | vm_compute in Hrun; discriminate].
  destruct (teams_json_for_compare_teams int_of_digits ascii_lower search_T1 None
              ["T1"; "2"; "T1"; "1"; "done"] teams provider_1_2)
    as (items & ms & -> & Hnd & Hload & Hall).
  - intros l. discriminate.
  - exact Hrun.
  - intros a b body. unfold provider_1_2.
    destruct ((a =? 1) && (b =? 2)); [|discriminate].
    intros [= <-]. repeat constructor; eexists; reflexivity.
  - assert (Hlen : length items = 2%nat).
    { vm_compute in Hrun. injection Hrun as <-. reflexivity. }
    exists items, ms. split; [reflexivity|]. split; [exact Hlen|].
    split; [apply Hnd; constructor|]. split; [apply Hload; lia | exact Hall].
Defined.
